(** * Co-evolving network simulation (Network_Simulation.py)

    A shallow embedding of the numerical core of the simulation: the
    update rule [network_dynamics], the matrix flattening [flatten] and
    the clamping [limit_params], together with the start-up code
    [initialize_network], the graph that holds the state, and the main
    loop ([iteration], [main_loop], [main]); of the drawing only the
    sizes that [update_visualization] computes are modelled
    ([nodesizes_of], [linkwidths_of]).

    Randomness and the name generator are explicit inputs (record
    [randomness]); exceptions are results ([Raise]); a [while] loop that
    may not end takes fuel.

    Numbers.  The program computes with numpy float64 values.  They are
    modelled here by the elements of an arbitrary real field [R] (exact
    arithmetic, no rounding, no NaN); every definition computes when [R]
    is instantiated with the rationals [rat].

    Arrays.  A one-dimensional array or Python list is a [seq R]; a
    two-dimensional array is the list of its rows.  numpy arrays are
    rectangular, which the predicate [is_shape] records. *)

From HB Require Import structures.
From mathcomp Require Import ssreflect ssrfun ssrbool eqtype ssrnat seq choice.
From mathcomp Require Import bigop order ssralg ssrnum ssrint rat.
From Stdlib Require Import String.

Set Implicit Arguments.
Unset Strict Implicit.
Unset Printing Implicit Defensive.

Import Order.TTheory GRing.Theory Num.Theory.
Local Open Scope ring_scope.

(** Node names are Python strings; [name in name_list] needs their
    decidable equality. *)
HB.instance Definition _ := hasDecEq.Build string String.eqb_spec.

(** ** Python exceptions and results *)

Inductive exception : Type :=
  | ValueError   (* numpy: shapes not aligned, negative dimensions *)
  | IndexError   (* list or array index out of range *)
  | KeyError     (* dict lookup of an absent key *)
  | OtherError.  (* any other exception, as a plotting call may raise *)

Inductive result (T : Type) : Type :=
  | Ok of T
  | Raise of exception.

Arguments Ok {T} _.
Arguments Raise {T} _.

Definition bind {A B : Type} (c : result A) (k : A -> result B) : result B :=
  match c with
  | Ok a => k a
  | Raise e => Raise e
  end.

Notation "x <-- c ;; k" := (bind c (fun x => k))
  (at level 61, c at next level, right associativity).

Definition is_ok {T : Type} (r : result T) : bool :=
  if r is Ok _ then true else false.

(** A list comprehension whose body may raise: the elements are computed
    from left to right and the first exception aborts the whole list. *)
Fixpoint mapM {A B : Type} (f : A -> result B) (s : seq A) : result (seq B) :=
  match s with
  | [::] => Ok [::]
  | a :: s' => b <-- f a ;; bs <-- mapM f s' ;; Ok (b :: bs)
  end.

(** ** numpy primitives used by the program *)

Section Numpy.

Variable R : realFieldType.

Definition array1 := seq R.
Definition array2 := seq (seq R).

(** [a.shape] of a two-dimensional array. *)
Definition shape (a : array2) : nat * nat := (size a, size (head [::] a)).

Definition is_shape (r c : nat) (a : array2) : bool :=
  (size a == r) && all (fun row => size row == c) a.

(** [a[i, j]] for indices known to be in range (callers check). *)
Definition entry (a : array2) (i j : nat) : R := nth 0 (nth [::] a i) j.

(** [s[n]] with a non-negative index: [IndexError] when out of range. *)
Definition getitem (s : array1) (n : nat) : result R :=
  if (n < size s)%N then Ok (nth 0 s n) else Raise IndexError.

(** [a[i, j]]: [IndexError] when either index is out of range. *)
Definition getitem2 (a : array2) (i j : nat) : result R :=
  if (i < (shape a).1)%N && (j < (shape a).2)%N then Ok (entry a i j)
  else Raise IndexError.

(** [np.sum] of a one-dimensional array. *)
Definition np_sum (s : array1) : R := foldr +%R 0 s.

(** [np.dot(v, a)] for a vector and a matrix: [v . a], which needs
    [len(v) == a.shape[0]]. *)
Definition np_dot12 (v : array1) (a : array2) : result array1 :=
  if size v == (shape a).1 then
    Ok (mkseq (fun j => np_sum (mkseq (fun i => nth 0 v i * entry a i j)
                                      (size v)))
              (shape a).2)
  else Raise ValueError.

(** [np.dot(a, b)] for two matrices, which needs
    [a.shape[1] == b.shape[0]]. *)
Definition np_dot22 (a b : array2) : result array2 :=
  if (shape a).2 == (shape b).1 then
    Ok (mkseq (fun i =>
          mkseq (fun j => np_sum (mkseq (fun k => entry a i k * entry b k j)
                                        (shape a).2))
                (shape b).2)
          (shape a).1)
  else Raise ValueError.

(** [ml.repmat(v, m, 1)] for a vector [v]: [m] copies of the row [v]. *)
Definition ml_repmat (v : array1) (m : nat) : array2 := nseq m v.

(** [np.diagonal(a)]. *)
Definition np_diagonal (a : array2) : array1 :=
  mkseq (fun i => entry a i i) (minn (shape a).1 (shape a).2).

(** [np.multiply(a, b)] for two arrays of the same shape, the only way
    the program calls it (the second operand is drawn with
    [size=links.shape]). *)
Definition np_multiply (a b : array2) : array2 :=
  mkseq (fun i => mkseq (fun j => entry a i j * entry b i j) (shape a).2)
        (shape a).1.

(** [np.random.uniform(low, high)]: [low + (high - low) * u] where [u]
    is the generator's underlying sample of the unit interval. *)
Definition np_random_uniform (low high : R) (u : R) : R :=
  low + (high - low) * u.

(** [np.random.uniform(low, high, size=(r, c))]; [u i j] is the
    underlying unit sample of entry [(i, j)]. *)
Definition np_random_uniform2 (low high : R) (sz : nat * nat)
    (u : nat -> nat -> R) : array2 :=
  mkseq (fun i => mkseq (fun j => np_random_uniform low high (u i j)) sz.2)
        sz.1.

End Numpy.

(** ** Module-level parameters (lines 18-38) *)

Record parameters (R : Type) : Type := Parameters {
  NODES : int;
  LINK_TH : R;
  LINK_W_BASE : R;
  LINK_W_DEV : R;
  NODE_Q_INIT : R;
  ITERATIONS : nat;
  LINK_MOD_BASE : R;
  LINK_MOD_DEV : R;
  NODE_Q_MIN : R;
  NODE_Q_MAX : R;
  LINK_W_MIN : R;
  LINK_W_MAX : R
}.

(** The values the source assigns. *)
Definition source_parameters (R : realFieldType) : parameters R :=
  {| NODES := 19;
     LINK_TH := 1 / 4%:R;
     LINK_W_BASE := 1 / 4%:R;
     LINK_W_DEV := 1 / 20%:R;
     NODE_Q_INIT := 2%:R;
     ITERATIONS := 1000;
     LINK_MOD_BASE := 1;
     LINK_MOD_DEV := 15%:R / 100%:R;
     NODE_Q_MIN := 1 / 100%:R;
     NODE_Q_MAX := 3%:R;
     LINK_W_MIN := 1 / 100%:R;
     LINK_W_MAX := 1 |}.

(** [range(n)] for a Python integer [n]: empty when [n <= 0]. *)
Definition range (n : int) : seq nat :=
  if n is Posz k then iota 0 k else [::].

(** ** The simulation functions *)

Section Simulation.

Variable R : realFieldType.
Variable P : parameters R.

Local Notation array1 := (array1 R).
Local Notation array2 := (array2 R).

(** Line 108: [transfers = np.dot(quantities, links)]. *)
Definition transfers_of (quantities : array1) (links : array2)
    : result array1 :=
  np_dot12 quantities links.

(** Lines 110-111: the losses as the diagonal of
    [links . repmat(quantities)]. *)
Definition losses_of (quantities : array1) (links : array2)
    : result array1 :=
  let quantities_rep := ml_repmat quantities (size quantities) in
  prod <-- np_dot22 links quantities_rep ;;
  Ok (np_diagonal prod).

(** Line 114: the comprehension over [range(len(name_list))];
    [name_list] is the module-level list of node names. *)
Definition merge (name_list : seq string) (quantities losses transfers : array1)
    : result array1 :=
  mapM (fun n =>
          qn <-- getitem quantities n ;;
          ln <-- getitem losses n ;;
          tn <-- getitem transfers n ;;
          Ok (qn - ln + tn))
       (iota 0 (size name_list)).

(** Lines 116-117: every weight is multiplied by its own uniform draw. *)
Definition drift (u : nat -> nat -> R) (links : array2) : array2 :=
  np_multiply links
    (np_random_uniform2 (LINK_MOD_BASE P - LINK_MOD_DEV P)
                        (LINK_MOD_BASE P + LINK_MOD_DEV P)
                        (shape links) u).

(** Lines 104-118.  [name_list] is the global the function reads, [u]
    the unit samples behind its call of [np.random.uniform]. *)
Definition network_dynamics (name_list : seq string) (u : nat -> nat -> R)
    (quantities : array1) (links : array2) : result (array1 * array2) :=
  transfers <-- transfers_of quantities links ;;
  losses <-- losses_of quantities links ;;
  quantities' <-- merge name_list quantities losses transfers ;;
  Ok (quantities', drift u links).

(** Lines 120-128.  Both loops run over [range(len(links))]; a found
    nonzero entry is appended to [links_flat]. *)
Definition flatten_row (links : array2) (lin : nat) (links_flat : array1)
    : result array1 :=
  foldl (fun acc col =>
           links_flat <-- acc ;;
           x <-- getitem2 links lin col ;;
           Ok (if x != 0 then rcons links_flat x else links_flat))
        (Ok links_flat) (iota 0 (size links)).

Definition flatten (links : array2) : result array1 :=
  foldl (fun acc lin => links_flat <-- acc ;; flatten_row links lin links_flat)
        (Ok [::]) (iota 0 (size links)).

(** Lines 135-140: the value the branches leave in [params[p]] when
    they find [x] there (the first branch assigns [x] to itself, the
    fall-through leaves it alone). *)
Definition limited (boundaries : R * R) (x : R) : R :=
  if (x > boundaries.1) && (x < boundaries.2) then x
  else if x < boundaries.1 then boundaries.1
  else if x > boundaries.2 then boundaries.2
  else x.

(** Lines 134-140: the body of the inner loop, which assigns
    [params[p]] in place. *)
Definition limit_at (boundaries : R * R) (params : array1) (p : nat)
    : array1 :=
  let x := nth 0 params p in
  if (x > boundaries.1) && (x < boundaries.2) then set_nth 0 params p x
  else if x < boundaries.1 then set_nth 0 params p boundaries.1
  else if x > boundaries.2 then set_nth 0 params p boundaries.2
  else params.

(** The inner loop for one list and its bound pair. *)
Definition limit_list (boundaries : R * R) (params : array1) : array1 :=
  foldl (limit_at boundaries) params (iota 0 (size params)).

(** Lines 130-141: the outer loop pairs the quantities with the node
    bounds and the flat weights with the link bounds. *)
Definition limit_params (quantities links_flat : array1) : array1 * array1 :=
  let limited :=
    [seq limit_list pb.2 pb.1
    | pb <- zip [:: quantities; links_flat]
                [:: (NODE_Q_MIN P, NODE_Q_MAX P);
                    (LINK_W_MIN P, LINK_W_MAX P)]] in
  (nth [::] limited 0, nth [::] limited 1).

(** ** The formulas of the specification *)

(** [transfer[j] = sum_i q[i] * W[i][j]]. *)
Definition transfer_spec (q : array1) (W : array2) (j : nat) : R :=
  \sum_(0 <= i < size q) nth 0 q i * entry W i j.

(** [loss[i] = q[i] * sum_j W[i][j]], the row-sum form. *)
Definition loss_rowsum (q : array1) (W : array2) (i : nat) : R :=
  nth 0 q i * \sum_(0 <= j < size q) entry W i j.


(** The positions of the nonzero entries of a square matrix in row-major
    order: row index outer, column index inner. *)
Definition nonzero_positions (W : array2) : seq (nat * nat) :=
  [seq ij <- [seq (i, j) | i <- iota 0 (size W), j <- iota 0 (size W)]
   | entry W ij.1 ij.2 != 0].

(** The closed-interval clamp [min(max(x, lo), hi)]. *)
Definition clamp (lo hi x : R) : R := Num.min (Num.max x lo) hi.

End Simulation.

(** ** The graph and the main program *)

(** A Python dict built from a list of (key, value) assignments: a later
    assignment to a key replaces an earlier one. *)
Fixpoint dict_get (K : eqType) (T : Type) (d : seq (K * T)) (k : K)
    : option T :=
  match d with
  | [::] => None
  | (k', v) :: d' =>
      match dict_get d' k with
      | Some w => Some w
      | None => if k' == k then Some v else None
      end
  end.

(** [d[k]]. *)
Definition dict_getitem (K : eqType) (T : Type) (d : seq (K * T)) (k : K)
    : result T :=
  if dict_get d k is Some v then Ok v else Raise KeyError.

(** The sources of randomness: the first names that
    [names.get_first_name()] returns, call after call, and the unit
    samples behind the calls of [np.random.uniform]. *)
Record randomness (R : Type) : Type := Randomness {
  first_names : nat -> string;
  quantity_samples : nat -> R;         (* line 57, node by node *)
  link_samples : nat -> nat -> R;      (* line 61, entry by entry *)
  threshold_samples : nat -> nat -> R; (* line 64, entry by entry *)
  drift_samples : nat -> nat -> nat -> R (* line 116, per iteration *)
}.

Section Network.

Variable R : realFieldType.
Variable P : parameters R.

Local Notation array1 := (array1 R).
Local Notation array2 := (array2 R).

(** A networkx [DiGraph] with nodes of type [V]: the nodes in insertion
    order, the 'Quantities' attribute of the nodes that have one, and
    the weighted edges in the order in which [G.edges()] yields them
    (by source node in node order, then in order of insertion). *)
Record DiGraph (V : Type) : Type := Graph {
  nodes : seq V;
  quantities_attr : seq (V * R);
  edges : seq (V * V * R)
}.

(** [nx.from_numpy_matrix(A, create_using=nx.DiGraph())] for a square
    [A]: nodes [0 .. n-1] and one edge per nonzero entry, added in the
    row-major order of [np.nonzero]. *)
Definition from_numpy_matrix (A : array2) : DiGraph nat :=
  {| nodes := iota 0 (size A);
     quantities_attr := [::];
     edges := [seq (ij.1, ij.2, entry A ij.1 ij.2)
              | ij <- nonzero_positions A] |}.

(** [nx.relabel_nodes(G, mapping)] for a mapping that names every node. *)
Definition relabel_nodes (G : DiGraph nat) (mapping : nat -> string)
    : DiGraph string :=
  {| nodes := [seq mapping n | n <- nodes G];
     quantities_attr := [seq (mapping a.1, a.2) | a <- quantities_attr G];
     edges := [seq (mapping e.1.1, mapping e.1.2, e.2) | e <- edges G] |}.

(** [nx.set_node_attributes(G, values, 'Quantities')]: every node that
    [values] mentions gets its value, the others keep what they have. *)
Definition set_node_attributes (V : eqType) (G : DiGraph V)
    (values : seq (V * R)) : DiGraph V :=
  {| nodes := nodes G;
     quantities_attr :=
       pmap (fun n =>
               match dict_get values n with
               | Some v => Some (n, v)
               | None => omap (pair n) (dict_get (quantities_attr G) n)
               end)
            (nodes G);
     edges := edges G |}.

(** [nx.get_node_attributes(G, 'Quantities')]. *)
Definition get_node_attributes (V : Type) (G : DiGraph V) : seq (V * R) :=
  quantities_attr G.

(** The weight of the edge from [a] to [b], 0 when there is none. *)
Definition edge_weight (V : eqType) (G : DiGraph V) (a b : V) : R :=
  if dict_get [seq ((e.1.1, e.1.2), e.2) | e <- edges G] (a, b) is Some w
  then w else 0.

(** [nx.convert_matrix.to_numpy_matrix(G, nodelist=nodelist)]. *)
Definition to_numpy_matrix (G : DiGraph string) (nodelist : seq string)
    : array2 :=
  mkseq (fun i =>
           mkseq (fun j => edge_weight G (nth EmptyString nodelist i)
                                         (nth EmptyString nodelist j))
                 (size nodelist))
        (size nodelist).

(** Lines 53-55: names are drawn, from draw [k] on, until one is not yet
    in [name_list]; [None] when [fuel] draws did not suffice. *)
Fixpoint fresh_name (fuel : nat) (draw : nat -> string) (k : nat)
    (name_list : seq string) : option (string * nat) :=
  match fuel with
  | 0%N => None
  | fuel'.+1 =>
      let name := draw k in
      if name \in name_list then fresh_name fuel' draw k.+1 name_list
      else Some (name, k.+1)
  end.

(** Lines 52-56: the names of [count] nodes. *)
Fixpoint draw_names (fuel : nat) (draw : nat -> string) (k : nat)
    (count : nat) (name_list : seq string) : option (seq string) :=
  match count with
  | 0%N => Some name_list
  | count'.+1 =>
      match fresh_name fuel draw k name_list with
      | Some (name, k') =>
          draw_names fuel draw k' count' (rcons name_list name)
      | None => None
      end
  end.

(** [np.random.uniform(low, high, size=(r, c))] with Python integers:
    numpy refuses negative dimensions. *)
Definition np_random_uniform_size (low high : R) (r c : int)
    (u : nat -> nat -> R) : result array2 :=
  match r, c with
  | Posz r', Posz c' => Ok (np_random_uniform2 low high (r', c') u)
  | _, _ => Raise ValueError
  end.

(** Lines 62-65: the diagonal and the entries whose draw exceeds
    [LINK_TH] are set to 0. *)
Definition threshold_links (rnd : randomness R) (links : array2) : array2 :=
  mkseq (fun i =>
           mkseq (fun j =>
                    if (i == j)
                       || (np_random_uniform 0 1 (threshold_samples rnd i j)
                           > LINK_TH P)
                    then 0 else entry links i j)
                 (size (range (NODES P))))
        (size (range (NODES P))).

(** Lines 48-78, without the layout.  [None]: a [while] loop of the
    naming did not end within [fuel] draws. *)
Definition initialize_network (fuel : nat) (rnd : randomness R)
    : option (result (DiGraph string * seq string)) :=
  match draw_names fuel (first_names rnd) 0 (size (range (NODES P))) [::] with
  | None => None
  | Some name_list =>
      let quantities :=
        [seq np_random_uniform 0 (NODE_Q_INIT P) (quantity_samples rnd i)
        | i <- range (NODES P)] in
      let quantities_dict := zip name_list quantities in
      Some (links <-- np_random_uniform_size
                        (LINK_W_BASE P - LINK_W_DEV P)
                        (LINK_W_BASE P + LINK_W_DEV P)
                        (NODES P) (NODES P) (link_samples rnd) ;;
            let links := threshold_links rnd links in
            let net := from_numpy_matrix links in
            let mapping := fun n => nth EmptyString name_list n in
            let net := relabel_nodes net mapping in
            let net := set_node_attributes net quantities_dict in
            Ok (net, name_list))
  end.

(** *** The drawing (lines 25-29 and 80-102) *)

(** Drawing parameters. *)
Definition NODE_SIZE_MIN : R := 4%:R / 10%:R.
Definition NODE_FONT_SIZE : R := 20%:R * NODE_SIZE_MIN.
Definition NODE_SIZE_SCALING : R := 3000%:R.
Definition LINK_SIZE_SCALING : R := 10%:R.

(** Lines 87-88: the two assignments to [nodesizes[n]]. *)
Definition nodesize_at (nodesizes : array1) (n : nat) : array1 :=
  let nodesizes :=
    set_nth 0 nodesizes n
      (if nth 0 nodesizes n < NODE_SIZE_MIN then NODE_SIZE_MIN
       else nth 0 nodesizes n) in
  set_nth 0 nodesizes n (nth 0 nodesizes n * NODE_SIZE_SCALING).

(** Lines 85-88: the loop runs on a deep copy of [quantities]. *)
Definition nodesizes_of (quantities : array1) : array1 :=
  foldl nodesize_at quantities (iota 0 (size quantities)).

(** Lines 89-90: [net[u][v]['weight'] * LINK_SIZE_SCALING] for every
    edge [(u, v)] of [net.edges()]. *)
Definition linkwidths_of (net : DiGraph string) : array1 :=
  [seq edge_weight net e.1.1 e.1.2 * LINK_SIZE_SCALING | e <- edges net].

(** What [nx.draw] and the matplotlib calls of lines 93-102 do is not in
    the program text.  They are given the graph, the node sizes, the
    link widths and the total [np.sum(quantities)] of the caption (and
    the layout, which never changes), and they return or raise: a
    [canvas] is one such outcome, as a function of what is passed. *)
Definition canvas : Type :=
  DiGraph string -> array1 -> array1 -> R -> result unit.

(** Lines 80-102: the sizes are computed, then the plotting calls run. *)
Definition update_visualization (draw : canvas) (net : DiGraph string)
    (name_list : seq string) (quantities : array1) : result unit :=
  let nodesizes := nodesizes_of quantities in
  let linkwidths := linkwidths_of net in
  draw net nodesizes linkwidths (np_sum quantities).

(** Lines 171-172: the flat weights are written to the edges, pair by
    pair of [zip(net.edges(data=True), links_flat)]. *)
Definition write_weights (V : Type) (G : DiGraph V) (links_flat : array1)
    : DiGraph V :=
  {| nodes := nodes G;
     quantities_attr := quantities_attr G;
     edges := [seq (el.1.1, el.2) | el <- zip (edges G) links_flat]
              ++ drop (size links_flat) (edges G) |}.

(** Lines 153-172: one pass of the main loop; [draw] is what the
    plotting calls of this pass do. *)
Definition iteration (name_list : seq string) (u : nat -> nat -> R)
    (draw : canvas) (net : DiGraph string) : result (DiGraph string) :=
  let quantities_dict := get_node_attributes net in
  quantities <-- mapM (dict_getitem quantities_dict) name_list ;;
  drawn <-- update_visualization draw net name_list quantities ;;
  let links := to_numpy_matrix net name_list in
  ql <-- network_dynamics P name_list u quantities links ;;
  links_flat <-- flatten ql.2 ;;
  let limited := limit_params P ql.1 links_flat in
  let quantities_dict := zip name_list limited.1 in
  let net := set_node_attributes net quantities_dict in
  Ok (write_weights net limited.2).

(** Lines 151-176: at most [k] passes, numbered from [i]; the loop also
    ends when the viewer is found closed after a pass.  [draw i] is
    what the plotting calls of pass [i] do. *)
Fixpoint main_loop (k : nat) (viewer_open : nat -> bool)
    (draw : nat -> canvas) (i : nat)
    (name_list : seq string) (rnd : randomness R) (net : DiGraph string)
    : result (DiGraph string) :=
  match k with
  | 0%N => Ok net
  | k'.+1 =>
      net' <-- iteration name_list (drift_samples rnd i) (draw i) net ;;
      if viewer_open i
      then main_loop k' viewer_open draw i.+1 name_list rnd net'
      else Ok net'
  end.

(** The state of the program as data: the graph on the nodes
    [name_list] that carries the quantities [quantities] and one edge
    for every nonzero entry of the matrix [A], in row-major order. *)
Definition named_graph (name_list : seq string) (quantities : array1)
    (A : array2) : DiGraph string :=
  {| nodes := name_list;
     quantities_attr := zip name_list quantities;
     edges := [seq (nth EmptyString name_list ij.1,
                    nth EmptyString name_list ij.2,
                    entry A ij.1 ij.2)
              | ij <- nonzero_positions A] |}.

(** Lines 57 and 61-65: the quantities and the weight matrix that the
    start-up draws. *)
Definition initial_quantities (rnd : randomness R) : array1 :=
  [seq np_random_uniform 0 (NODE_Q_INIT P) (quantity_samples rnd i)
  | i <- range (NODES P)].

Definition initial_links (rnd : randomness R) : array2 :=
  threshold_links rnd
    (np_random_uniform2 (LINK_W_BASE P - LINK_W_DEV P)
                        (LINK_W_BASE P + LINK_W_DEV P)
                        (size (range (NODES P)), size (range (NODES P)))
                        (link_samples rnd)).

(** The weights after one pass: clamped where there is an edge. *)
Definition limit_links (W : array2) : array2 :=
  [seq [seq if x != 0 then limited (LINK_W_MIN P, LINK_W_MAX P) x else 0
       | x <- row]
  | row <- W].

(** The quantities after one pass: the update of [network_dynamics],
    clamped. *)
Definition next_quantities (q : array1) (A : array2) : array1 :=
  [seq limited (NODE_Q_MIN P, NODE_Q_MAX P) x
  | x <- mkseq (fun i => nth 0 q i - loss_rowsum q A i + transfer_spec q A i)
               (size q)].

(** The weights after one pass: drifted, then clamped on the edges. *)
Definition next_links (u : nat -> nat -> R) (A : array2) : array2 :=
  limit_links (drift P u A).



(** A configuration the specification calls malformed: no node, or a
    bound pair whose minimum exceeds its maximum. *)
Definition malformed : bool :=
  [|| (NODES P <= 0)%R, NODE_Q_MAX P < NODE_Q_MIN P
    | LINK_W_MAX P < LINK_W_MIN P].

End Network.

(** The same parameters with other bound pairs. *)
Definition with_bounds (R : Type) (P : parameters R)
    (q_min q_max w_min w_max : R) : parameters R :=
  {| NODES := NODES P;
     LINK_TH := LINK_TH P;
     LINK_W_BASE := LINK_W_BASE P;
     LINK_W_DEV := LINK_W_DEV P;
     NODE_Q_INIT := NODE_Q_INIT P;
     ITERATIONS := ITERATIONS P;
     LINK_MOD_BASE := LINK_MOD_BASE P;
     LINK_MOD_DEV := LINK_MOD_DEV P;
     NODE_Q_MIN := q_min;
     NODE_Q_MAX := q_max;
     LINK_W_MIN := w_min;
     LINK_W_MAX := w_max |}.

(** The same parameters with another node count. *)
Definition with_nodes (R : Type) (P : parameters R) (n : int) : parameters R :=
  {| NODES := n;
     LINK_TH := LINK_TH P;
     LINK_W_BASE := LINK_W_BASE P;
     LINK_W_DEV := LINK_W_DEV P;
     NODE_Q_INIT := NODE_Q_INIT P;
     ITERATIONS := ITERATIONS P;
     LINK_MOD_BASE := LINK_MOD_BASE P;
     LINK_MOD_DEV := LINK_MOD_DEV P;
     NODE_Q_MIN := NODE_Q_MIN P;
     NODE_Q_MAX := NODE_Q_MAX P;
     LINK_W_MIN := LINK_W_MIN P;
     LINK_W_MAX := LINK_W_MAX P |}.

(** The start-up ran to its end and raised nothing. *)
Definition started (T : Type) (r : option (result T)) : bool :=
  if r is Some (Ok _) then true else false.

(** ** Concrete data for the examples *)

(** Distinct one-letter names: "A", "B", "C", ... *)
Definition letter (i : nat) : string :=
  String (Ascii.ascii_of_nat (65 + i)) EmptyString.

(** A fixed outcome of the random draws, over the rationals. *)
Definition sample_draws : randomness rat :=
  {| first_names := letter;
     quantity_samples := fun i => 1 / 2%:R;
     link_samples := fun i j => 1 / 2%:R;
     threshold_samples :=
       fun i j => if odd (i + j) then 1 / 10%:R else 9%:R / 10%:R;
     drift_samples := fun k i j => 1 / 3%:R |}.

(** The two-node example of the specification. *)
Definition example_quantities : array1 rat := [:: 1; 0].
Definition example_links : array2 rat := [:: [:: 0; 1 / 2%:R]; [:: 0; 0]].
Definition example_names : seq string := [:: letter 0; letter 1].
Definition example_samples : nat -> nat -> rat := fun _ _ => 1 / 2%:R.

(** Three nodes, the last without any link, and a matrix with more
    columns than rows. *)
Definition example_names3 : seq string := [:: letter 0; letter 1; letter 2].
Definition example_quantities3 : array1 rat := [:: 1; 0; 2%:R].
Definition example_links3 : array2 rat :=
  [:: [:: 0; 1 / 2%:R; 0]; [:: 0; 0; 0]; [:: 0; 0; 0]].
Definition example_wide : array2 rat :=
  [:: [:: 1; 0; 2%:R]; [:: 0; 3%:R; 4%:R]].

(** A name source that yields every name twice: "A", "A", "B", "B", ... *)
Definition example_repeating (k : nat) : string := letter (k./2).

(** A viewer that is closed after the second pass. *)
Definition example_viewer (i : nat) : bool := (i < 1)%N.

(** Plotting calls that return, whatever they are given. *)
Definition example_canvas : canvas rat := fun _ _ _ _ => Ok tt.
Definition example_drawing (i : nat) : canvas rat := example_canvas.

(** Values below, inside and above the interval [0, 2]. *)
Definition example_params : array1 rat := [:: - 1; 1 / 2%:R; 7%:R].

(** * Proofs *)

(** ** Results and comprehensions *)

Section MapM.

Variables (A : eqType) (B : Type).

Lemma mapM_ok (f : A -> result B) (g : A -> B) (s : seq A) :
  {in s, forall x, f x = Ok (g x)} -> mapM f s = Ok (map g s).
Proof.
elim: s => [//|a s IH] Hf /=.
rewrite (Hf a (mem_head a s)) /= IH // => x Hx.
by apply: Hf; rewrite in_cons Hx orbT.
Qed.

Lemma mapM_raise (f : A -> result B) (g : A -> B) (e : exception)
    (s1 s2 : seq A) (a : A) :
  {in s1, forall x, f x = Ok (g x)} -> f a = Raise e ->
  mapM f (s1 ++ a :: s2) = Raise e.
Proof.
elim: s1 => [|b s1 IH] Hf Ha /=; first by rewrite Ha.
rewrite (Hf b (mem_head b s1)) /= IH // => x Hx.
by apply: Hf; rewrite in_cons Hx orbT.
Qed.

End MapM.

(** ** numpy primitives *)

Section NumpyFacts.

Variable R : realFieldType.
Implicit Types (v q : array1 R) (a W : array2 R).

Lemma np_sumE v : np_sum v = \sum_(x <- v) x.
Proof. by rewrite /np_sum foldrE. Qed.

Lemma np_sum_mkseq (f : nat -> R) (n : nat) :
  np_sum (mkseq f n) = \sum_(0 <= i < n) f i.
Proof. by rewrite np_sumE big_map /index_iota subn0. Qed.

Lemma shape_square n a : is_shape n n a -> shape a = (n, n).
Proof.
rewrite /is_shape /shape; case/andP => /eqP <-.
by case: a => [//|row a] /= /andP [/eqP -> _].
Qed.

Lemma size_row n c a i : is_shape n c a -> (i < n)%N -> size (nth [::] a i) = c.
Proof.
case/andP => /eqP <- /allP Hall Hi.
by apply/eqP/Hall/mem_nth.
Qed.

Lemma shape_repmat v : shape (ml_repmat v (size v)) = (size v, size v).
Proof. by rewrite /shape /ml_repmat size_nseq; case: v. Qed.

Lemma entry_repmat v m k j : (k < m)%N -> entry (ml_repmat v m) k j = nth 0 v j.
Proof. by move=> Hk; rewrite /entry /ml_repmat nth_nseq Hk. Qed.

Lemma shape_mkseq2 (f : nat -> nat -> R) (r c : nat) :
  (0 < r)%N -> shape (mkseq (fun i => mkseq (f i) c) r) = (r, c).
Proof. by case: r => [//|r] _; rewrite /shape !size_mkseq. Qed.

Lemma entry_mkseq2 (f : nat -> nat -> R) (r c i j : nat) :
  (i < r)%N -> (j < c)%N -> entry (mkseq (fun i => mkseq (f i) c) r) i j = f i j.
Proof. by move=> Hi Hj; rewrite /entry nth_mkseq // nth_mkseq. Qed.

Lemma is_shape_mkseq2 (f : nat -> nat -> R) (r c : nat) :
  is_shape r c (mkseq (fun i => mkseq (f i) c) r).
Proof.
rewrite /is_shape size_mkseq eqxx /=.
by apply/allP => row /mapP [i _ ->]; rewrite size_mkseq.
Qed.

Lemma np_diagonal_mkseq2 (f : nat -> nat -> R) (n : nat) :
  np_diagonal (mkseq (fun i => mkseq (f i) n) n) = mkseq (fun i => f i i) n.
Proof.
case: n => [//|n]; rewrite /np_diagonal shape_mkseq2 //= minnn.
apply: (@eq_from_nth _ 0); rewrite !size_mkseq // => i Hi.
by rewrite !nth_mkseq // entry_mkseq2.
Qed.

Lemma mkseq_ext (T : Type) (f g : nat -> T) (n : nat) :
  (forall i, (i < n)%N -> f i = g i) -> mkseq f n = mkseq g n.
Proof.
move=> Hfg; apply/eq_in_map => i.
by rewrite mem_iota add0n => /andP [_ Hi]; apply: Hfg.
Qed.

End NumpyFacts.

(** ** The update rule *)

Section DynamicsFacts.

Variable R : realFieldType.
Variable P : parameters R.
Implicit Types (q : array1 R) (W : array2 R).

Lemma transfers_ofE q W n :
  size q = n -> is_shape n n W ->
  transfers_of q W = Ok (mkseq (transfer_spec q W) n).
Proof.
move=> Hq HW; rewrite /transfers_of /np_dot12 (shape_square HW) /= Hq eqxx.
congr Ok; apply: mkseq_ext => j _.
by rewrite np_sum_mkseq /transfer_spec Hq.
Qed.

Lemma losses_ofE q W n :
  size q = n -> is_shape n n W ->
  losses_of q W = Ok (mkseq (loss_rowsum q W) n).
Proof.
move=> Hq HW.
rewrite /losses_of /np_dot22 shape_repmat (shape_square HW) /= Hq eqxx /=.
rewrite np_diagonal_mkseq2; congr Ok; apply: mkseq_ext => i Hi.
rewrite np_sum_mkseq /loss_rowsum Hq mulrC big_distrl /=.
by apply: eq_big_nat => k /andP [_ Hk]; rewrite entry_repmat.
Qed.

Lemma merge_ok (name_list : seq string) q (l t : array1 R) :
  (size name_list <= size q)%N -> (size name_list <= size l)%N ->
  (size name_list <= size t)%N ->
  merge name_list q l t =
  Ok (mkseq (fun n => nth 0 q n - nth 0 l n + nth 0 t n) (size name_list)).
Proof.
move=> Hq Hl Ht; apply: mapM_ok => n.
rewrite mem_iota add0n /= => Hn; rewrite /getitem.
by rewrite (leq_trans Hn Hq) (leq_trans Hn Hl) (leq_trans Hn Ht).
Qed.

Lemma merge_raise (name_list : seq string) q (l t : array1 R) m :
  size q = m -> size l = m -> size t = m -> (m < size name_list)%N ->
  merge name_list q l t = Raise IndexError.
Proof.
move=> Hq Hl Ht Hm; rewrite /merge -(subnKC (ltnW Hm)) iotaD add0n.
rewrite -(subnSK Hm) /=.
apply: (@mapM_raise _ _ _ (fun n => nth 0 q n - nth 0 l n + nth 0 t n)).
  move=> n; rewrite mem_iota add0n /= => Hn.
  by rewrite /getitem Hq Hl Ht Hn.
by rewrite /getitem Hq ltnn.
Qed.

(** The step on well-shaped arguments, in closed form. *)
Lemma network_dynamicsE (name_list : seq string) u q W n :
  size name_list = n -> size q = n -> is_shape n n W ->
  network_dynamics P name_list u q W =
  Ok (mkseq (fun i => nth 0 q i - loss_rowsum q W i + transfer_spec q W i) n,
      drift P u W).
Proof.
move=> Hn Hq HW.
rewrite /network_dynamics (transfers_ofE Hq HW) (losses_ofE Hq HW) /=.
rewrite merge_ok ?size_mkseq ?Hn ?Hq //=.
congr (Ok (_, _)); apply: mkseq_ext => i Hi.
by rewrite !nth_mkseq.
Qed.





(** C6: for q = [1.0, 0.0] and W = [[0, 0.5], [0, 0]] (two nodes, of
    whatever names) the step computes transfers [0, 0.5] and losses
    [0.5, 0] and returns the quantities [0.5, 0.5], before clamping. *)
Theorem dynamics_example (a b : string) u :
  let q : array1 R := [:: 1; 0] in
  let W : array2 R := [:: [:: 0; 1 / 2%:R]; [:: 0; 0]] in
  [/\ transfers_of q W = Ok [:: 0; 1 / 2%:R],
      losses_of q W = Ok [:: 1 / 2%:R; 0]
    & network_dynamics P [:: a; b] u q W
      = Ok ([:: 1 / 2%:R; 1 / 2%:R], drift P u W)].
Proof.
have Hhalf : 1 - 2%:R^-1 = 2%:R^-1 :> R.
  by rewrite [X in X - _](splitr 1) mul1r addrK.
rewrite /network_dynamics /transfers_of /losses_of /np_dot12 /np_dot22 /=.
rewrite /np_diagonal /mkseq /= /entry /mkseq /=.
by rewrite !(mulr0, mul0r, addr0, add0r, mul1r, mulr1, subr0, oppr0) Hhalf.
Qed.

(** A square links matrix of the size of quantities: the step succeeds
    exactly when there are no more names than quantities. *)
Lemma network_dynamics_bounds (name_list : seq string) u q W :
  is_shape (size q) (size q) W ->
  network_dynamics P name_list u q W =
  if (size name_list <= size q)%N then
    Ok (mkseq (fun i => nth 0 q i - loss_rowsum q W i + transfer_spec q W i)
              (size name_list),
        drift P u W)
  else Raise IndexError.
Proof.
move=> HW.
rewrite /network_dynamics (transfers_ofE erefl HW) (losses_ofE erefl HW) /=.
case: leqP => Hn.
  rewrite merge_ok ?size_mkseq //=; congr (Ok (_, _)).
  apply: mkseq_ext => i Hi.
  by rewrite !nth_mkseq ?(leq_trans Hi Hn).
by rewrite (@merge_raise _ _ _ _ (size q)) ?size_mkseq.
Qed.

(** C9 (amended): [network_dynamics] builds its result over
    [range(len(name_list))], whatever the length of [quantities].  On a
    square links matrix of the size of [quantities], its index accesses
    are all in bounds exactly when there are at most as many names as
    quantities; then the list returned has one entry per name (it is
    cut short when there are more quantities than names); with more
    names than quantities the comprehension raises IndexError. *)
Theorem network_dynamics_index_bounds (name_list : seq string) u q W :
  is_shape (size q) (size q) W ->
  [/\ is_ok (network_dynamics P name_list u q W)
      = (size name_list <= size q)%N,
      (size q < size name_list)%N ->
        network_dynamics P name_list u q W = Raise IndexError
    & forall q' links', network_dynamics P name_list u q W = Ok (q', links') ->
        size q' = size name_list].
Proof.
move=> HW; rewrite (network_dynamics_bounds _ _ HW).
split; first by case: leqP.
  by rewrite ltnNge => /negbTE ->.
by case: leqP => // _ q' links' [<- _]; rewrite size_mkseq.
Qed.

End DynamicsFacts.

(** ** Clamping *)

Section LimitFacts.

Variable R : realFieldType.
Implicit Types (params : array1 R) (b : R * R) (lo hi x : R).

Lemma set_nth_same params p :
  (p < size params)%N -> set_nth 0 params p (nth 0 params p) = params.
Proof.
move=> Hp; apply: (@eq_from_nth _ 0).
  by rewrite size_set_nth; apply/maxn_idPr.
move=> i _; rewrite nth_set_nth /=.
by case: eqP => [->|].
Qed.

Lemma limit_atE b params p :
  (p < size params)%N ->
  limit_at b params p = set_nth 0 params p (limited b (nth 0 params p)).
Proof.
move=> Hp; rewrite /limit_at /limited.
by do 3![case: ifP => // _]; rewrite set_nth_same.
Qed.

(** The state of the list after the first [k] rounds of the loop. *)
Lemma limit_loop b params k :
  (k <= size params)%N ->
  size (foldl (limit_at b) params (iota 0 k)) = size params
  /\ forall i, nth 0 (foldl (limit_at b) params (iota 0 k)) i =
       if (i < k)%N then limited b (nth 0 params i) else nth 0 params i.
Proof.
elim: k => [|k IH] Hk; first by [].
have [Hsz Hnth] := IH (ltnW Hk).
rewrite -addn1 iotaD add0n foldl_cat /= limit_atE ?Hsz //; split.
  by rewrite size_set_nth Hsz; apply/maxn_idPr.
move=> i; rewrite nth_set_nth /= !Hnth ltnn addn1 ltnS [(i <= k)%N]leq_eqVlt.
by case: eqP => [->|].
Qed.

Lemma limit_listE b params : limit_list b params = map (limited b) params.
Proof.
have [Hsz Hnth] := limit_loop b (leqnn (size params)).
apply: (@eq_from_nth _ 0); rewrite ?size_map // => i.
rewrite Hsz => Hi.
by rewrite /limit_list Hnth Hi (nth_map 0).
Qed.

Lemma limited_clamp lo hi x : lo <= hi -> limited (lo, hi) x = clamp lo hi x.
Proof.
move=> Hlh; rewrite /limited /clamp /= minElt maxElt.
case: (ltgtP x lo) => [Hx|Hx|Hx] /=.
- by case: (ltgtP lo hi) Hlh.
- by case: (ltgtP x hi).
by rewrite Hx; case: (ltgtP lo hi) Hlh.
Qed.

Lemma clamp_inside lo hi x : lo <= x <= hi -> clamp lo hi x = x.
Proof.
case/andP => Hlo Hhi.
by rewrite /clamp (max_idPl Hlo) (min_idPl Hhi).
Qed.

Lemma clamp_below lo hi x : lo <= hi -> x < lo -> clamp lo hi x = lo.
Proof.
move=> Hlh Hx.
by rewrite /clamp (max_idPr (ltW Hx)) (min_idPl Hlh).
Qed.

Lemma clamp_above lo hi x : lo <= hi -> hi < x -> clamp lo hi x = hi.
Proof.
move=> Hlh Hx.
by rewrite /clamp (max_idPl (le_trans Hlh (ltW Hx))) (min_idPr (ltW Hx)).
Qed.

Lemma clamp_range lo hi x : lo <= hi -> lo <= clamp lo hi x <= hi.
Proof.
move=> Hlh; rewrite /clamp le_min le_max lexx orbT Hlh /=.
by rewrite ge_min lexx orbT.
Qed.

Lemma clamp_idem lo hi x :
  lo <= hi -> clamp lo hi (clamp lo hi x) = clamp lo hi x.
Proof. by move=> Hlh; apply/clamp_inside/clamp_range. Qed.

Lemma limit_params_pair (P : parameters R) (quantities links_flat : array1 R) :
  limit_params P quantities links_flat =
  (limit_list (NODE_Q_MIN P, NODE_Q_MAX P) quantities,
   limit_list (LINK_W_MIN P, LINK_W_MAX P) links_flat).
Proof. by []. Qed.

(** The bound pairs of the source are well ordered. *)
Lemma source_bounds_ordered :
  NODE_Q_MIN (source_parameters R) <= NODE_Q_MAX (source_parameters R)
  /\ LINK_W_MIN (source_parameters R) <= LINK_W_MAX (source_parameters R).
Proof.
rewrite /= !ler_pdivrMr ?ltr0n // mul1r -natrM !ler1n.
by [].
Qed.

(** With ordered bounds in the parameters, both lists are clamped. *)
Lemma limit_params_ordered (P : parameters R)
    (quantities links_flat : array1 R) :
  NODE_Q_MIN P <= NODE_Q_MAX P -> LINK_W_MIN P <= LINK_W_MAX P ->
  limit_params P quantities links_flat =
    ([seq clamp (NODE_Q_MIN P) (NODE_Q_MAX P) x | x <- quantities],
     [seq clamp (LINK_W_MIN P) (LINK_W_MAX P) x | x <- links_flat]).
Proof.
move=> Hq Hw; rewrite limit_params_pair !limit_listE.
by congr pair; apply: eq_map => x; apply: limited_clamp.
Qed.

(** A bound pair given upside down: every value below the first bound
    is set to it, every other value to the second. *)
Lemma limited_inverted lo hi x :
  hi < lo -> limited (lo, hi) x = if x < lo then lo else hi.
Proof.
move=> Hlh; rewrite /limited /=.
case: (ltgtP x lo) => [//|Hx|->] /=.
  by rewrite (lt_trans Hlh Hx) ltNge (ltW (lt_trans Hlh Hx)).
by rewrite Hlh.
Qed.

(** C3: [limit_params] is the elementwise closed-interval clamp
    min(max(x, lo), hi): with the constants of the source the quantities
    are clamped to [NODE_Q_MIN, NODE_Q_MAX] and the flat weights to
    [LINK_W_MIN, LINK_W_MAX]; and for every bound pair lo <= hi and every
    list the loop keeps the length, returns every value of the closed
    interval unchanged, replaces every value below lo by lo and every
    value above hi by hi. *)
Theorem limit_params_is_clamp (quantities links_flat params : array1 R)
    (lo hi : R) :
  lo <= hi ->
  let SP := source_parameters R in
  [/\ limit_params SP quantities links_flat =
        ([seq clamp (NODE_Q_MIN SP) (NODE_Q_MAX SP) x | x <- quantities],
         [seq clamp (LINK_W_MIN SP) (LINK_W_MAX SP) x | x <- links_flat]),
      limit_list (lo, hi) params = [seq clamp lo hi x | x <- params],
      size (limit_list (lo, hi) params) = size params
    & forall p, (p < size params)%N ->
        let x := nth 0 params p in
        let y := nth 0 (limit_list (lo, hi) params) p in
        [/\ lo <= x <= hi -> y = x, x < lo -> y = lo & hi < x -> y = hi]].
Proof.
move=> Hlh SP; have [Hq Hw] := source_bounds_ordered.
have Hlist : limit_list (lo, hi) params = [seq clamp lo hi x | x <- params].
  by rewrite limit_listE; apply: eq_map => x; apply: limited_clamp.
split=> //; first exact: limit_params_ordered.
  by rewrite Hlist size_map.
move=> p Hp /=; rewrite Hlist (nth_map 0) //; split.
- exact: clamp_inside.
- exact: clamp_below.
exact: clamp_above.
Qed.

(** C7: clamping twice gives what clamping once gives: for
    [limit_params] with the constants of the source, and for the loop
    with any bound pair lo <= hi. *)
Theorem limit_params_idempotent (quantities links_flat params : array1 R)
    (lo hi : R) :
  lo <= hi ->
  let SP := source_parameters R in
  let once := limit_params SP quantities links_flat in
  limit_params SP once.1 once.2 = once
  /\ limit_list (lo, hi) (limit_list (lo, hi) params)
     = limit_list (lo, hi) params.
Proof.
move=> Hlh /=; have [Hq Hw] := source_bounds_ordered.
have Hlist (l h : R) (s : array1 R) :
    l <= h -> limit_list (l, h) (limit_list (l, h) s) = limit_list (l, h) s.
  move=> Hl; rewrite !limit_listE -map_comp; apply: eq_map => x /=.
  by rewrite !limited_clamp // clamp_idem.
by split; rewrite ?limit_params_pair /= !Hlist.
Qed.

End LimitFacts.

(** ** Flattening *)

Section FlattenFacts.

Variable R : realFieldType.
Implicit Types (links : array2 R) (acc : array1 R).

Lemma flatten_row_prefix links n lin acc k :
  is_shape n n links -> (lin < n)%N -> (k <= n)%N ->
  foldl (fun r col =>
           links_flat <-- r ;;
           x <-- getitem2 links lin col ;;
           Ok (if x != 0 then rcons links_flat x else links_flat))
        (Ok acc) (iota 0 k)
  = Ok (acc ++ [seq x <- take k (nth [::] links lin) | x != 0]).
Proof.
move=> Hs Hlin; elim: k => [|k IH] Hk; first by rewrite take0 cats0.
rewrite -addn1 iotaD add0n foldl_cat IH ?(ltnW Hk) //=.
rewrite /getitem2 (shape_square Hs) /= Hlin Hk /=.
rewrite addn1 (take_nth 0) ?(size_row Hs) // filter_rcons -/(entry links lin k).
by case: ifP => _; rewrite ?rcons_cat.
Qed.

Lemma flatten_rowE links n lin acc :
  is_shape n n links -> (lin < n)%N ->
  flatten_row links lin acc
  = Ok (acc ++ [seq x <- nth [::] links lin | x != 0]).
Proof.
move=> Hs Hlin; rewrite /flatten_row.
have -> : size links = n by case/andP: Hs => /eqP.
rewrite (flatten_row_prefix acc Hs Hlin (leqnn n)).
by rewrite take_oversize // (size_row Hs).
Qed.

Lemma flatten_prefix links n k :
  is_shape n n links -> (k <= n)%N ->
  foldl (fun r lin => links_flat <-- r ;; flatten_row links lin links_flat)
        (Ok [::]) (iota 0 k)
  = Ok [seq x <- seq.flatten (take k links) | x != 0].
Proof.
move=> Hs; elim: k => [|k IH] Hk; first by rewrite take0.
rewrite -addn1 iotaD add0n foldl_cat IH ?(ltnW Hk) //=.
rewrite (flatten_rowE _ Hs) // addn1 (take_nth [::]).
  by case/andP: Hs => /eqP ->.
by rewrite flatten_rcons filter_cat.
Qed.

Lemma flattenE links n :
  is_shape n n links -> flatten links = Ok [seq x <- seq.flatten links | x != 0].
Proof.
move=> Hs; rewrite /flatten; have Hn : size links = n by case/andP: Hs => /eqP.
by rewrite Hn (flatten_prefix Hs (leqnn n)) take_oversize // Hn.
Qed.

(** Reading a square matrix position by position in row-major order
    gives the concatenation of its rows. *)
Lemma row_major_entries links n :
  is_shape n n links ->
  [seq entry links ij.1 ij.2
  | ij <- [seq (i, j) | i <- iota 0 (size links), j <- iota 0 (size links)]]
  = seq.flatten links.
Proof.
move=> Hs; have Hn : size links = n by case/andP: Hs => /eqP.
rewrite Hn /allpairs map_flatten -map_comp.
congr seq.flatten; apply: (@eq_from_nth _ [::]).
  by rewrite size_map size_iota Hn.
move=> i; rewrite size_map size_iota => Hi.
rewrite (nth_map 0%N) ?size_iota // nth_iota // add0n /= -map_comp.
apply: (@eq_from_nth _ 0); first by rewrite size_map size_iota (size_row Hs).
move=> j; rewrite size_map size_iota => Hj.
by rewrite (nth_map 0%N) ?size_iota //= nth_iota.
Qed.

(** The flat list follows [nonzero_positions]. *)
Lemma flatten_positions links n :
  is_shape n n links ->
  flatten links
  = Ok [seq entry links ij.1 ij.2 | ij <- nonzero_positions links].
Proof.
move=> Hs; rewrite (flattenE Hs) /nonzero_positions.
by rewrite -(row_major_entries Hs) filter_map.
Qed.

End FlattenFacts.

(** ** Weight drift *)

Section DriftFacts.

Variable R : realFieldType.
Implicit Types (links F : array2 R).

Lemma shape_rows r c links :
  is_shape r c links -> (0 < r)%N -> shape links = (r, c).
Proof.
rewrite /is_shape /shape; case/andP => /eqP <-.
by case: links => [//|row a] /= /andP [/eqP -> _].
Qed.

Lemma entry_multiply r c links F i j :
  is_shape r c links -> (i < r)%N -> (j < c)%N ->
  entry (np_multiply links F) i j = entry links i j * entry F i j.
Proof.
move=> Hs Hi Hj.
by rewrite /np_multiply (shape_rows Hs) ?(leq_ltn_trans _ Hi) // entry_mkseq2.
Qed.

Lemma is_shape_multiply r c links F :
  is_shape r c links -> is_shape r c (np_multiply links F).
Proof.
case: r => [|r] Hs.
  by move: Hs; rewrite /is_shape => /andP [/eqP/size0nil -> _].
by rewrite /np_multiply (shape_rows Hs) // is_shape_mkseq2.
Qed.

Lemma uniform_range (low high u : R) :
  low <= high -> 0 <= u <= 1 -> low <= np_random_uniform low high u <= high.
Proof.
move=> Hlh /andP [H0 H1]; rewrite /np_random_uniform.
have Hd : 0 <= high - low by rewrite subr_ge0.
rewrite lerDl mulr_ge0 //= -lerBrDl.
by rewrite -[X in _ <= X]mulr1 ler_wpM2l.
Qed.

Lemma entry_drift (P : parameters R) (u : nat -> nat -> R) r c links i j :
  is_shape r c links -> (i < r)%N -> (j < c)%N ->
  entry (drift P u links) i j
  = entry links i j
    * np_random_uniform (LINK_MOD_BASE P - LINK_MOD_DEV P)
                        (LINK_MOD_BASE P + LINK_MOD_DEV P) (u i j).
Proof.
move=> Hs Hi Hj; rewrite /drift (entry_multiply _ Hs) //.
by rewrite (shape_rows Hs) ?(leq_ltn_trans _ Hi) // entry_mkseq2.
Qed.

Lemma source_drift_interval :
  let SP := source_parameters R in
  0 < LINK_MOD_BASE SP - LINK_MOD_DEV SP
  /\ LINK_MOD_BASE SP - LINK_MOD_DEV SP <= LINK_MOD_BASE SP + LINK_MOD_DEV SP.
Proof.
have H0 : 0 < 15%:R / 100%:R :> R by rewrite divr_gt0 ?ltr0n.
split; rewrite /=.
  by rewrite subr_gt0 ltr_pdivrMr ?ltr0n // mul1r ltr_nat.
by rewrite lerBlDr -addrA lerDl addr_ge0 // ltW.
Qed.

(** C5: with the constants of the source the drift factors lie in the
    positive interval [LINK_MOD_BASE - LINK_MOD_DEV,
    LINK_MOD_BASE + LINK_MOD_DEV]; the elementwise product of a weight
    matrix with any matrix of such factors, and so the drift step of
    [network_dynamics], keeps the shape and has a zero exactly where the
    weight matrix has one (the diagonal included): no edge appears and
    no weight becomes zero by drift. *)
Theorem drift_preserves_zero_pattern links F (u : nat -> nat -> R) r c :
  let SP := source_parameters R in
  let lo := LINK_MOD_BASE SP - LINK_MOD_DEV SP in
  let hi := LINK_MOD_BASE SP + LINK_MOD_DEV SP in
  is_shape r c links ->
  (forall i j, (i < r)%N -> (j < c)%N -> lo <= entry F i j <= hi) ->
  (forall i j, 0 <= u i j <= 1) ->
  [/\ 0 < lo,
      is_shape r c (np_multiply links F) /\ is_shape r c (drift SP u links),
      forall i j, (i < r)%N -> (j < c)%N ->
        (entry (np_multiply links F) i j == 0) = (entry links i j == 0)
    & forall i j, (i < r)%N -> (j < c)%N ->
        (entry (drift SP u links) i j == 0) = (entry links i j == 0)].
Proof.
move=> SP lo hi Hs HF Hu; have [Hlo Hlh] := source_drift_interval.
have Hprod G i j : (i < r)%N -> (j < c)%N -> lo <= entry G i j ->
    (entry (np_multiply links G) i j == 0) = (entry links i j == 0).
  move=> Hi Hj HG; rewrite (entry_multiply _ Hs) // mulf_eq0.
  by rewrite [X in _ || X]gt_eqF ?orbF // (lt_le_trans Hlo).
split=> //; first by split; apply: is_shape_multiply.
  by move=> i j Hi Hj; apply: Hprod => //; case/andP: (HF i j Hi Hj).
move=> i j Hi Hj; apply: Hprod => //.
rewrite (shape_rows Hs) ?(leq_ltn_trans _ Hi) // entry_mkseq2 //.
by case/andP: (uniform_range Hlh (Hu i j)).
Qed.

End DriftFacts.

(** ** Start-up *)

Section StartFacts.

Variable R : realFieldType.
Implicit Types (P : parameters R) (rnd : randomness R).

Lemma fresh_name_new fuel (draw : nat -> string) k (name_list : seq string) :
  draw k \notin name_list ->
  fresh_name fuel.+1 draw k name_list = Some (draw k, k.+1).
Proof. by move=> /negbTE /= ->. Qed.

(** When the draws are distinct no [while] loop ever repeats. *)
Lemma draw_names_uniq fuel (draw : nat -> string) k count
    (name_list : seq string) :
  uniq (name_list ++ mkseq (fun i => draw (k + i)%N) count) ->
  draw_names fuel.+1 draw k count name_list
  = Some (name_list ++ mkseq (fun i => draw (k + i)%N) count).
Proof.
elim: count k name_list => [|count IH] k name_list.
  by rewrite /= cats0.
have -> : mkseq (fun i => draw (k + i)%N) count.+1
          = draw k :: mkseq (fun i => draw (k.+1 + i)%N) count.
  rewrite /mkseq /= addn0; congr cons.
  rewrite (iotaDl 1 0 count) -map_comp; apply: eq_map => i /=.
  by rewrite add1n addnS addSn.
move=> Huniq; have Hnew : draw k \notin name_list.
  by move: Huniq; rewrite -cat_rcons cat_uniq rcons_uniq => /andP [/andP []].
by rewrite /= (negbTE Hnew) IH cat_rcons.
Qed.

Lemma size_range_pos n : size (range (Posz n)) = n.
Proof. by rewrite /= size_iota. Qed.

(** A negative node count is refused by numpy when the links are drawn. *)
Lemma initialize_network_negative P rnd fuel n :
  NODES P = Negz n -> initialize_network P fuel rnd = Some (Raise ValueError).
Proof. by rewrite /initialize_network => ->. Qed.

(** C8 (amended): the start-up does not validate the configuration.  For
    every node count n >= 0 (0 included) and whatever the bound pairs
    (a minimum above its maximum included), [initialize_network] raises
    nothing: given n distinct first names it returns these names and a
    graph on them, with an n-by-n weight matrix, and returns the same
    for any other choice of the bounds. *)
Theorem initialize_network_unvalidated P rnd fuel n
    (q_min q_max w_min w_max : R) :
  NODES P = Posz n -> uniq (mkseq (first_names rnd) n) ->
  let name_list := mkseq (first_names rnd) n in
  exists net : DiGraph R string,
    [/\ initialize_network P fuel.+1 rnd = Some (Ok (net, name_list)),
        initialize_network (with_bounds P q_min q_max w_min w_max) fuel.+1 rnd
        = Some (Ok (net, name_list)),
        nodes net = name_list,
        size name_list = n
      & is_shape n n (to_numpy_matrix net name_list)].
Proof.
move=> Hn Huniq name_list.
have Hnames : draw_names fuel.+1 (first_names rnd) 0 n [::] = Some name_list.
  by rewrite draw_names_uniq.
rewrite /initialize_network /threshold_links /= Hn size_range_pos Hnames /=.
eexists; split; try reflexivity.
- rewrite /= size_mkseq -[X in iota 0 X](size_mkseq (first_names rnd) n).
  exact: mkseq_nth.
- by rewrite size_mkseq.
by rewrite /to_numpy_matrix size_mkseq is_shape_mkseq2.
Qed.

End StartFacts.

(** ** Dictionaries *)

Section DictFacts.

Variables (K : eqType) (T : Type).
Implicit Types (ks : seq K) (vs : seq T).

Lemma dict_get_absent ks vs (k : K) :
  k \notin ks -> dict_get (zip ks vs) k = None.
Proof.
elim: ks vs => [|k' ks IH] [|v vs] //=.
by rewrite in_cons negb_or eq_sym => /andP [/negbTE -> /IH ->].
Qed.

Lemma dict_get_zip ks vs (k0 : K) (v0 : T) i :
  uniq ks -> (i < size ks)%N -> (i < size vs)%N ->
  dict_get (zip ks vs) (nth k0 ks i) = Some (nth v0 vs i).
Proof.
elim: ks vs i => [|k ks IH] [|v vs] [|i] //= /andP [Hk Hu] Hi Hv.
  by rewrite dict_get_absent // eqxx.
by rewrite IH.
Qed.

End DictFacts.

(** ** The state of the main loop *)

Section PositionFacts.

Variable R : realFieldType.
Implicit Types (A B : array2 R).

Lemma mem_nonzero_positions A i j :
  ((i, j) \in nonzero_positions A)
  = [&& (i < size A)%N, (j < size A)%N & entry A i j != 0].
Proof.
rewrite /nonzero_positions mem_filter /= andbC andbA; congr andb.
apply/allpairsP/andP => [[[i' j'] /= [Hi Hj [-> ->]]]|[Hi Hj]].
  by move: Hi Hj; rewrite !mem_iota !add0n.
by exists (i, j); rewrite /= !mem_iota !add0n.
Qed.

Lemma uniq_nonzero_positions A : uniq (nonzero_positions A).
Proof.
apply: filter_uniq; apply: allpairs_uniq; rewrite ?iota_uniq //.
by move=> [i j] [i' j'] _ _ /= [-> ->].
Qed.

Lemma nonzero_positions_same A B :
  size B = size A ->
  (forall i j, (i < size A)%N -> (j < size A)%N ->
     (entry B i j == 0) = (entry A i j == 0)) ->
  nonzero_positions B = nonzero_positions A.
Proof.
move=> Hsz Hz; rewrite /nonzero_positions Hsz; apply: eq_in_filter.
move=> [i j] /allpairsP [[i' j'] /= [Hi Hj [-> ->]]].
by move: Hi Hj; rewrite !mem_iota !add0n /= => Hi Hj; rewrite Hz.
Qed.

End PositionFacts.

Section GraphFacts.

Variable R : realFieldType.
Variable name_list : seq string.
Hypothesis names_uniq : uniq name_list.

Implicit Types (q : array1 R) (A : array2 R).

Local Notation n := (size name_list).
Local Notation nm := (nth EmptyString name_list).

Lemma pmap_all_some (S T : Type) (f : S -> option T) (s : seq S) (t : seq T) :
  map f s = map Some t -> pmap f s = t.
Proof. by elim: s t => [|x s IH] [|y t] //= [-> /IH ->]. Qed.

(** Lines 154-155: the quantities are read back in the order of the
    names. *)
Lemma quantities_of_named_graph q A :
  size q = n ->
  mapM (dict_getitem (get_node_attributes (named_graph name_list q A)))
       name_list
  = Ok q.
Proof.
move=> Hq.
rewrite (@mapM_ok _ _ _ (fun name : string => nth 0 q (seq.index name name_list))).
  move=> name Hin; rewrite /dict_getitem /get_node_attributes /=.
  rewrite -{1}(nth_index EmptyString Hin).
  by rewrite (dict_get_zip _ 0) ?Hq ?index_mem.
congr Ok; apply: (@eq_from_nth _ 0); rewrite size_map // => i Hi.
by rewrite (nth_map EmptyString) // index_uniq.
Qed.

(** Line 169: the new quantities replace the old ones. *)
Lemma set_attributes_named_graph q q' A :
  size q' = n ->
  set_node_attributes (named_graph name_list q A) (zip name_list q')
  = named_graph name_list q' A.
Proof.
move=> Hq'; rewrite /set_node_attributes /named_graph /=; congr Graph.
apply: pmap_all_some; apply: (@eq_from_nth _ None).
  by rewrite !size_map size_zip Hq' minnn.
move=> i; rewrite size_map => Hi.
rewrite (nth_map EmptyString) // (dict_get_zip _ 0) ?Hq' //.
by rewrite (nth_map (EmptyString, 0)) ?size_zip ?Hq' ?minnn // nth_zip.
Qed.

Lemma name_pair_inj (i j i' j' : nat) :
  (i < n)%N -> (j < n)%N -> (i' < n)%N -> (j' < n)%N ->
  (nm i, nm j) = (nm i', nm j') -> (i, j) = (i', j').
Proof.
move=> Hi Hj Hi' Hj' [/eqP Ha /eqP Hb].
move: Ha Hb; rewrite !nth_uniq // => /eqP -> /eqP ->.
by [].
Qed.

(** The weight that the graph stores for a pair of nodes is the entry
    of the matrix. *)
Lemma edge_weight_named_graph q A i j :
  size A = n -> (i < n)%N -> (j < n)%N ->
  edge_weight (named_graph name_list q A) (nm i) (nm j) = entry A i j.
Proof.
move=> HA Hi Hj; rewrite /edge_weight /= -map_comp.
pose key (ij : nat * nat) := (nm ij.1, nm ij.2).
pose val (ij : nat * nat) := entry A ij.1 ij.2.
set s := nonzero_positions A.
have -> : [seq (((fun e : string * string * R => ((e.1.1, e.1.2), e.2))
                 \o (fun ij : nat * nat => (nm ij.1, nm ij.2, entry A ij.1 ij.2)))
                ij) | ij <- s]
          = zip (map key s) (map val s).
  by rewrite zip_map.
have Hrange ij : ij \in s -> (ij.1 < n)%N /\ (ij.2 < n)%N.
  by case: ij => a b; rewrite mem_nonzero_positions HA => /and3P [].
have Hinj : {in s &, injective key}.
  move=> [a b] [a' b'] /Hrange [/= Ha Hb] /Hrange [/= Ha' Hb'].
  exact: name_pair_inj.
case Hz : (entry A i j == 0).
  rewrite dict_get_absent ?(eqP Hz) //.
  apply/negP => /mapP [[a b] Hin Heq].
  have [/= Ha Hb] := Hrange _ Hin.
  have [Hia Hjb] := name_pair_inj Hi Hj Ha Hb Heq.
  by move: Hin; rewrite mem_nonzero_positions -Hia -Hjb Hz !andbF.
have Hin : (i, j) \in s by rewrite mem_nonzero_positions HA Hi Hj Hz.
have -> : (nm i, nm j) = nth (key (0%N, 0%N)) (map key s) (seq.index (i, j) s).
  by rewrite (nth_map (0%N, 0%N)) ?index_mem // nth_index.
rewrite (dict_get_zip _ 0) ?size_map ?index_mem //.
  by rewrite map_inj_in_uniq // uniq_nonzero_positions.
by rewrite (nth_map (0%N, 0%N)) ?index_mem // nth_index.
Qed.

(** Line 159: the matrix read back from the graph. *)
Lemma to_numpy_matrix_named_graph q A :
  is_shape n n A -> to_numpy_matrix (named_graph name_list q A) name_list = A.
Proof.
move=> Hs; have HA : size A = n by case/andP: Hs => /eqP.
apply: (@eq_from_nth _ [::]); rewrite size_mkseq // => i Hi.
rewrite nth_mkseq //.
apply: (@eq_from_nth _ 0); rewrite size_mkseq ?(size_row Hs) // => j Hj.
by rewrite nth_mkseq // edge_weight_named_graph.
Qed.

(** Lines 171-172: flat weights listed in the order of the edges land
    on the entries they came from. *)
Lemma write_weights_named_graph q A B :
  nonzero_positions B = nonzero_positions A ->
  write_weights (named_graph name_list q A)
                [seq entry B ij.1 ij.2 | ij <- nonzero_positions B]
  = named_graph name_list q B.
Proof.
move=> Hpos; rewrite /write_weights /named_graph /= Hpos; congr Graph.
rewrite zip_map -map_comp size_map.
rewrite -[X in drop X _](size_map
  (fun ij : nat * nat => (nm ij.1, nm ij.2, entry A ij.1 ij.2))).
by rewrite drop_size cats0.
Qed.

End GraphFacts.


(** ** Flattening and the write-back *)

Section FlattenWriteBack.

Variable R : realFieldType.

(** C10: on a square matrix [flatten] raises nothing and returns exactly
    the nonzero entries in row-major order (row index outer, column
    index inner), so the length of the result is the number of nonzero
    entries.  This is the order of [nonzero_positions], in which the
    graph lists its edges; hence writing the result back edge by edge,
    on a graph whose edges sit at the nonzero positions of the matrix,
    gives every edge the entry of its own position. *)
Theorem flatten_nonzero_row_major (links : array2 R) n :
  is_shape n n links ->
  exists links_flat : array1 R,
    [/\ flatten links = Ok links_flat,
        links_flat = [seq x <- seq.flatten links | x != 0],
        links_flat = [seq entry links ij.1 ij.2 | ij <- nonzero_positions links],
        size links_flat = count (fun x => x != 0) (seq.flatten links)
      & forall (name_list : seq string) (q : array1 R) (A : array2 R),
          nonzero_positions links = nonzero_positions A ->
          write_weights (named_graph name_list q A) links_flat
          = named_graph name_list q links].
Proof.
move=> Hs; exists [seq x <- seq.flatten links | x != 0].
have Hpos : [seq x <- seq.flatten links | x != 0]
            = [seq entry links ij.1 ij.2 | ij <- nonzero_positions links].
  by rewrite /nonzero_positions -(row_major_entries Hs) filter_map.
split=> //; first exact: flattenE Hs.
  by rewrite size_filter.
by move=> name_list q A HA; rewrite Hpos; apply: write_weights_named_graph.
Qed.

End FlattenWriteBack.

(** ** One pass of the main loop *)

Section StepFacts.

Variable R : realFieldType.
Variable P : parameters R.
Variable name_list : seq string.
Hypothesis names_uniq : uniq name_list.

(** The parameters are well formed: the drift factors are positive and
    so is the lower bound of the weights. *)
Hypothesis mod_positive : 0 < LINK_MOD_BASE P - LINK_MOD_DEV P.
Hypothesis mod_ordered :
  LINK_MOD_BASE P - LINK_MOD_DEV P <= LINK_MOD_BASE P + LINK_MOD_DEV P.
Hypothesis w_positive : 0 < LINK_W_MIN P.
Hypothesis w_ordered : LINK_W_MIN P <= LINK_W_MAX P.

Implicit Types (q : array1 R) (A : array2 R) (u : nat -> nat -> R).

Local Notation n := (size name_list).

Lemma drift_zero u A i j :
  is_shape n n A -> 0 <= u i j <= 1 -> (i < n)%N -> (j < n)%N ->
  (entry (drift P u A) i j == 0) = (entry A i j == 0).
Proof.
move=> Hs Hu Hi Hj; rewrite (entry_drift _ _ Hs) // mulf_eq0.
case/andP: (uniform_range mod_ordered Hu) => Hlo _.
by rewrite [X in _ || X]gt_eqF ?orbF // (lt_le_trans mod_positive).
Qed.

Lemma limited_weight_nonzero x :
  limited (LINK_W_MIN P, LINK_W_MAX P) x != 0.
Proof.
rewrite limited_clamp //; case/andP: (clamp_range x w_ordered) => Hlo _.
by rewrite gt_eqF // (lt_le_trans w_positive).
Qed.


Lemma entry_limit_links A i j :
  entry (limit_links P A) i j
  = if entry A i j != 0
    then limited (LINK_W_MIN P, LINK_W_MAX P) (entry A i j) else 0.
Proof.
rewrite /entry /limit_links.
case: (ltnP i (size A)) => Hi; last first.
  by rewrite !nth_default ?size_map //= ?nth_nil eqxx.
rewrite (nth_map [::]) //.
case: (ltnP j (size (nth [::] A i))) => Hj; last first.
  by rewrite (@nth_default _ 0 (nth [::] A i) j) // nth_default ?size_map // eqxx.
by rewrite (nth_map 0).
Qed.

Lemma limit_links_zero A i j :
  (entry (limit_links P A) i j == 0) = (entry A i j == 0).
Proof.
rewrite entry_limit_links; case Hz : (entry A i j == 0) => /=.
  by rewrite eqxx.
by rewrite (negbTE (limited_weight_nonzero _)).
Qed.

(** One pass of the main loop takes the state of [q] and [A] to the
    state of the clamped new quantities and the clamped drifted
    weights: the write-back puts every weight on its own edge. *)
Lemma iteration_named_graph u (draw : canvas R) q A :
  size q = n -> is_shape n n A -> (forall i j, 0 <= u i j <= 1) ->
  update_visualization draw (named_graph name_list q A) name_list q = Ok tt ->
  iteration P name_list u draw (named_graph name_list q A)
  = Ok (named_graph name_list (next_quantities P q A) (next_links P u A)).
Proof.
move=> Hq Hs Hu Hdraw; have HA : size A = n by case/andP: Hs => /eqP.
have HD : is_shape n n (drift P u A) by apply: is_shape_multiply.
have HsD : size (drift P u A) = n by case/andP: HD => /eqP.
have Hpos : nonzero_positions (next_links P u A) = nonzero_positions A.
  apply: nonzero_positions_same.
    by rewrite /next_links /limit_links size_map HsD HA.
  rewrite HA => i j Hi Hj.
  by rewrite limit_links_zero drift_zero.
have HposD : nonzero_positions (drift P u A) = nonzero_positions A.
  apply: nonzero_positions_same; first by rewrite HsD HA.
  by rewrite HA => i j Hi Hj; rewrite drift_zero.
rewrite /iteration quantities_of_named_graph // [bind (Ok q) _]/= Hdraw /=.
rewrite to_numpy_matrix_named_graph // (network_dynamicsE _ _ erefl Hq Hs) /=.
rewrite (flatten_positions HD) /= !limit_listE.
have -> : [seq limited (NODE_Q_MIN P, NODE_Q_MAX P) x
          | x <- mkseq (fun i => nth 0 q i - loss_rowsum q A i
                                 + transfer_spec q A i) n]
          = next_quantities P q A by rewrite /next_quantities Hq.
rewrite set_attributes_named_graph //.
  by rewrite /next_quantities size_map size_mkseq.
rewrite -(write_weights_named_graph _ _ Hpos); congr (Ok (write_weights _ _)).
rewrite Hpos HposD -map_comp; apply/eq_in_map => -[i j] /=.
rewrite mem_nonzero_positions HA => /and3P [Hi Hj Hz].
by rewrite entry_limit_links (drift_zero Hs (Hu i j) Hi Hj) Hz.
Qed.


Hypothesis q_ordered : NODE_Q_MIN P <= NODE_Q_MAX P.







End StepFacts.

(** ** The whole program *)

Section ProgramFacts.

Variable R : realFieldType.
Variable P : parameters R.
Variable rnd : randomness R.
Variable n : nat.

Hypothesis nodes_count : NODES P = Posz n.

Local Notation name_list := (mkseq (first_names rnd) n).

Hypothesis names_uniq : uniq name_list.

Lemma size_initial_quantities : size (initial_quantities P rnd) = n.
Proof. by rewrite /initial_quantities nodes_count size_map size_iota. Qed.

Lemma is_shape_initial_links : is_shape n n (initial_links P rnd).
Proof.
by rewrite /initial_links /threshold_links nodes_count size_range_pos
           is_shape_mkseq2.
Qed.


(** The start-up returns the state of the quantities and the links it
    drew. *)
Lemma initialize_network_named_graph fuel :
  initialize_network P fuel.+1 rnd
  = Some (Ok (named_graph name_list (initial_quantities P rnd)
                          (initial_links P rnd), name_list)).
Proof.
have Hnames : draw_names fuel.+1 (first_names rnd) 0 n [::] = Some name_list.
  by rewrite draw_names_uniq.
have HQ : initial_quantities P rnd
          = [seq np_random_uniform 0 (NODE_Q_INIT P) (quantity_samples rnd i)
            | i <- iota 0 n].
  by rewrite /initial_quantities nodes_count.
have HL : initial_links P rnd
          = threshold_links P rnd
              (np_random_uniform2 (LINK_W_BASE P - LINK_W_DEV P)
                 (LINK_W_BASE P + LINK_W_DEV P) (n, n) (link_samples rnd)).
  by rewrite /initial_links nodes_count size_range_pos.
rewrite /initialize_network nodes_count size_range_pos Hnames /= -HQ -HL.
have -> : relabel_nodes (from_numpy_matrix (initial_links P rnd))
            (fun k => nth EmptyString name_list k)
          = named_graph name_list [::] (initial_links P rnd).
  rewrite /relabel_nodes /named_graph /= -map_comp.
  have Hsz : size (initial_links P rnd) = n.
    by case/andP: is_shape_initial_links => /eqP.
  rewrite Hsz -[X in iota 0 X](size_mkseq (first_names rnd) n).
  by rewrite -/(mkseq _ _) mkseq_nth; case: (mkseq _ _).
by rewrite set_attributes_named_graph // size_initial_quantities size_mkseq.
Qed.

Hypothesis mod_positive : 0 < LINK_MOD_BASE P - LINK_MOD_DEV P.
Hypothesis mod_ordered :
  LINK_MOD_BASE P - LINK_MOD_DEV P <= LINK_MOD_BASE P + LINK_MOD_DEV P.
Hypothesis w_positive : 0 < LINK_W_MIN P.
Hypothesis w_ordered : LINK_W_MIN P <= LINK_W_MAX P.
Hypothesis q_ordered : NODE_Q_MIN P <= NODE_Q_MAX P.
Hypothesis drift_unit : forall k i j, 0 <= drift_samples rnd k i j <= 1.


End ProgramFacts.

(** ** The program with the constants of the source *)

Section SourceFacts.

Variable R : realFieldType.

Local Notation SP := (source_parameters R).



End SourceFacts.

(** * Further properties of the program *)

(** ** The update rule: errors and special nodes *)

Section DynamicsMore.

Variable R : realFieldType.
Variable P : parameters R.
Implicit Types (q : array1 R) (W : array2 R) (u : nat -> nat -> R).

(** X1: for a links matrix with r > 0 rows and c columns, [network_dynamics]
    raises ValueError unless the matrix is square of the size of the
    quantities: [np.dot(quantities, links)] refuses a row count other
    than [len(quantities)], and [np.dot(links, quantities_rep)] a column
    count other than it. *)
Theorem network_dynamics_shape_error (name_list : seq string) u q W r c :
  is_shape r c W -> (0 < r)%N -> ~~ ((size q == r) && (c == r)) ->
  network_dynamics P name_list u q W = Raise ValueError.
Proof.
move=> Hs Hr; rewrite /network_dynamics /transfers_of /losses_of.
rewrite /np_dot12 /np_dot22 shape_repmat (shape_rows Hs Hr) /=.
case: (size q =P r) => [->|//] /=.
by rewrite eq_sym => /negbTE ->.
Qed.

(** X2: a node without any link (its row and its column of the weight
    matrix are zero) comes out of [network_dynamics] with the quantity
    it had. *)
Theorem isolated_node_keeps_quantity (name_list : seq string) u q W n i :
  size name_list = n -> size q = n -> is_shape n n W -> (i < n)%N ->
  (forall j, (j < n)%N -> entry W i j = 0 /\ entry W j i = 0) ->
  exists q' : array1 R,
    network_dynamics P name_list u q W = Ok (q', drift P u W)
    /\ nth 0 q' i = nth 0 q i.
Proof.
move=> Hn Hq HW Hi Hiso; rewrite (network_dynamicsE P u Hn Hq HW).
eexists; split; first by reflexivity.
rewrite nth_mkseq // /loss_rowsum /transfer_spec Hq.
rewrite !big_nat !big1 ?mulr0 ?subr0 ?addr0 // => j /andP [_ Hj].
  by rewrite (Hiso j Hj).1.
by rewrite (Hiso j Hj).2 mulr0.
Qed.


End DynamicsMore.

Section DriftMore.

Variable R : realFieldType.

(** X4: with the constants of the source, the drift of [network_dynamics]
    moves a non-negative weight w to a value between 0.85 w and
    1.15 w. *)
Theorem drift_within_fifteen_percent (u : nat -> nat -> R)
    (links : array2 R) r c i j :
  is_shape r c links -> (i < r)%N -> (j < c)%N ->
  0 <= u i j <= 1 -> 0 <= entry links i j ->
  let w' := entry (drift (source_parameters R) u links) i j in
  (85%:R / 100%:R) * entry links i j <= w'
  <= (115%:R / 100%:R) * entry links i j.
Proof.
move=> Hs Hi Hj Hu Hw /=; rewrite (entry_drift _ _ Hs) //.
have [_ Hlh] := source_drift_interval R.
case/andP: (uniform_range Hlh Hu) => /= Hlo Hhi.
have Hl : 85%:R / 100%:R = 1 - 15%:R / 100%:R :> R.
  rewrite -[X in X - _](@divff _ 100%:R) ?pnatr_eq0 // -mulrBl -natrB //.
have Hh : 115%:R / 100%:R = 1 + 15%:R / 100%:R :> R.
  by rewrite -[X in X + _](@divff _ 100%:R) ?pnatr_eq0 // -mulrDl -natrD.
by rewrite Hl Hh ![_ * entry _ _ _]mulrC !ler_wpM2l.
Qed.

End DriftMore.

(** ** Flattening a matrix that is not square *)

Section FlattenMore.

Variable R : realFieldType.
Implicit Types (links : array2 R) (acc : array1 R).

Lemma flatten_step_raise links lin e (cols : seq nat) :
  foldl (fun r col =>
           links_flat <-- r ;;
           x <-- getitem2 links lin col ;;
           Ok (if x != 0 then rcons links_flat x else links_flat))
        (Raise e) cols
  = Raise e.
Proof. by elim: cols. Qed.

Lemma flatten_raise links e (rows : seq nat) :
  foldl (fun r lin => links_flat <-- r ;; flatten_row links lin links_flat)
        (Raise e) rows
  = Raise e.
Proof. by elim: rows. Qed.

Lemma flatten_row_prefix_rect links r c lin acc k :
  is_shape r c links -> (lin < r)%N -> (k <= c)%N ->
  foldl (fun res col =>
           links_flat <-- res ;;
           x <-- getitem2 links lin col ;;
           Ok (if x != 0 then rcons links_flat x else links_flat))
        (Ok acc) (iota 0 k)
  = Ok (acc ++ [seq x <- take k (nth [::] links lin) | x != 0]).
Proof.
move=> Hs Hlin; have Hr0 : (0 < r)%N by apply: leq_ltn_trans Hlin.
elim: k => [|k IH] Hk; first by rewrite take0 cats0.
rewrite -addn1 iotaD add0n foldl_cat IH ?(ltnW Hk) //=.
rewrite /getitem2 (shape_rows Hs Hr0) /= Hlin Hk /=.
rewrite addn1 (take_nth 0) ?(size_row Hs) // filter_rcons -/(entry links lin k).
by case: ifP => _; rewrite ?rcons_cat.
Qed.

(** X5: [flatten] runs both of its loops over [range(len(links))], the
    number of rows.  On a matrix with at least as many columns as rows
    it reads only the first [len(links)] columns and silently leaves the
    others out; on a matrix with fewer columns than rows it raises
    IndexError. *)
Theorem flatten_rectangular links r c :
  is_shape r c links ->
  ((r <= c)%N ->
     flatten links
     = Ok [seq x <- seq.flatten [seq take r row | row <- links] | x != 0])
  /\ ((c < r)%N -> flatten links = Raise IndexError).
Proof.
move=> Hs; have Hr : size links = r by case/andP: Hs => /eqP.
split=> Hrc.
  rewrite /flatten Hr.
  have Hpre k : (k <= r)%N ->
      foldl (fun res lin => links_flat <-- res ;;
                            flatten_row links lin links_flat)
            (Ok [::]) (iota 0 k)
      = Ok [seq x <- seq.flatten [seq take r row | row <- take k links]
           | x != 0].
    elim: k => [|k IH] Hk; first by rewrite take0.
    rewrite -addn1 iotaD add0n foldl_cat IH ?(ltnW Hk) //=.
    rewrite /flatten_row Hr (flatten_row_prefix_rect _ Hs) //.
    rewrite addn1 (take_nth [::]) ?Hr // map_rcons flatten_rcons.
    by rewrite filter_cat.
  by rewrite Hpre // take_oversize // Hr.
have Hr0 : (0 < r)%N by apply: leq_ltn_trans Hrc.
have Hrow acc : flatten_row links 0 acc = Raise IndexError.
  rewrite /flatten_row Hr -(subnKC (ltnW Hrc)) iotaD add0n foldl_cat.
  rewrite (flatten_row_prefix_rect _ Hs) // -(subnSK Hrc) /=.
  have -> : getitem2 links 0 c = Raise IndexError.
    by rewrite /getitem2 (shape_rows Hs Hr0) /= ltnn andbF.
  exact: flatten_step_raise.
by rewrite /flatten Hr -(prednK Hr0) /= Hrow flatten_raise.
Qed.

End FlattenMore.

(** ** Clamping: range, order, and bounds given upside down *)

Section LimitMore.

Variable R : realFieldType.
Implicit Types (params : array1 R) (lo hi x y : R).

(** X6: with a bound pair given upside down (hi < lo) the loop of
    [limit_params] sets every value below lo to lo and every other value
    to hi, and a second run sends each value to the opposite bound: the
    loop is then neither a clamp nor idempotent. *)
Theorem limit_list_inverted lo hi params :
  hi < lo ->
  limit_list (lo, hi) params = [seq if x < lo then lo else hi | x <- params]
  /\ limit_list (lo, hi) (limit_list (lo, hi) params)
     = [seq if x < lo then hi else lo | x <- params].
Proof.
move=> Hlh; have Hone s :
    limit_list (lo, hi) s = [seq if x < lo then lo else hi | x <- s].
  by rewrite limit_listE; apply: eq_map => x; apply: limited_inverted.
split=> //; rewrite !Hone -map_comp; apply: eq_map => x /=.
by case: (x < lo); rewrite ?ltxx ?Hlh.
Qed.

(** X7: [limit_params] keeps the length of both lists and, with the
    constants of the source, returns only quantities in
    [NODE_Q_MIN, NODE_Q_MAX] and weights in [LINK_W_MIN, LINK_W_MAX]. *)
Theorem limit_params_within_bounds (quantities links_flat : array1 R) :
  let SP := source_parameters R in
  let out := limit_params SP quantities links_flat in
  [/\ size out.1 = size quantities,
      size out.2 = size links_flat,
      all (fun x => NODE_Q_MIN SP <= x <= NODE_Q_MAX SP) out.1
    & all (fun x => LINK_W_MIN SP <= x <= LINK_W_MAX SP) out.2].
Proof.
move=> SP out; have [Hq Hw] := source_bounds_ordered R.
rewrite /out /SP (limit_params_ordered _ _ Hq Hw) /= !size_map; split=> //.
  by apply/allP => y /mapP [x _ ->]; apply: clamp_range.
by apply/allP => y /mapP [x _ ->]; apply: clamp_range.
Qed.

(** X8: for lo <= hi the loop of [limit_params] keeps the order of the
    values: if one value is at most another before, so it is after. *)
Theorem limit_list_monotone lo hi params p1 p2 :
  lo <= hi -> (p1 < size params)%N -> (p2 < size params)%N ->
  nth 0 params p1 <= nth 0 params p2 ->
  nth 0 (limit_list (lo, hi) params) p1
  <= nth 0 (limit_list (lo, hi) params) p2.
Proof.
move=> Hlh H1 H2 Hle; rewrite limit_listE !(nth_map 0) // !limited_clamp //.
rewrite /clamp le_min !ge_min ge_max !le_max Hle !lexx !orbT.
by [].
Qed.

End LimitMore.

(** ** The start-up: names, quantities and links *)

Section StartMore.

Variable R : realFieldType.
Implicit Types (P : parameters R) (rnd : randomness R).

Lemma fresh_name_is_new fuel (draw : nat -> string) k
    (name_list : seq string) name k' :
  fresh_name fuel draw k name_list = Some (name, k') ->
  name \notin name_list.
Proof.
elim: fuel k => [//|fuel IH] k /=.
by case: ifPn => [_ /IH|Hnew [<- _]].
Qed.

Lemma draw_names_sound fuel (draw : nat -> string) k count
    (name_list names : seq string) :
  uniq name_list ->
  draw_names fuel draw k count name_list = Some names ->
  uniq names /\ size names = (size name_list + count)%N.
Proof.
elim: count k name_list => [|count IH] k name_list Hu /=.
  by move=> [<-]; rewrite addn0.
case Hf : (fresh_name fuel draw k name_list) => [[name k']|//].
move/IH; rewrite rcons_uniq Hu (fresh_name_is_new Hf) size_rcons addSnnS.
exact.
Qed.

Lemma relabel_from_matrix (name_list : seq string) (A : array2 R) :
  size A = size name_list ->
  relabel_nodes (from_numpy_matrix A) (fun k => nth EmptyString name_list k)
  = named_graph name_list [::] A.
Proof.
move=> HA; rewrite /relabel_nodes /named_graph /= -map_comp HA.
by rewrite -/(mkseq _ _) mkseq_nth; case: name_list {HA}.
Qed.

(** X9: whatever names the name source yields, a start-up that returns has
    as many names as [NODES], all of them distinct (the [while] loop of
    lines 54-55 redraws every duplicate), and its graph has these names
    as nodes in this order, the drawn quantities as attributes, by name,
    and one edge per nonzero entry of the drawn matrix, in row-major
    order. *)
Theorem initialize_network_result P rnd fuel
    (net : DiGraph R string) (name_list : seq string) :
  initialize_network P fuel rnd = Some (Ok (net, name_list)) ->
  [/\ uniq name_list,
      NODES P = Posz (size name_list),
      nodes net = name_list
    & net = named_graph name_list (initial_quantities P rnd)
                        (initial_links P rnd)].
Proof.
rewrite /initialize_network.
case Hd : (draw_names _ _ _ _ _) => [names|//].
have [Hu Hsz] := draw_names_sound (isT : uniq [::]) Hd.
case Hn : (NODES P) Hd Hsz => [n|n] //=; rewrite size_iota add0n => Hd Hsz.
move=> [<- <-].
have HQ : initial_quantities P rnd
          = [seq np_random_uniform 0 (NODE_Q_INIT P) (quantity_samples rnd i)
            | i <- iota 0 n].
  by rewrite /initial_quantities Hn.
have HL : initial_links P rnd
          = threshold_links P rnd
              (np_random_uniform2 (LINK_W_BASE P - LINK_W_DEV P)
                 (LINK_W_BASE P + LINK_W_DEV P) (n, n) (link_samples rnd)).
  by rewrite /initial_links Hn size_range_pos.
have HsL : size (initial_links P rnd) = size names.
  by rewrite HL /threshold_links Hn size_range_pos size_mkseq.
rewrite -HQ -HL relabel_from_matrix // set_attributes_named_graph //.
  by rewrite HQ size_map size_iota.
by rewrite Hsz.
Qed.

Lemma np_random_uniform_unit (u : R) : np_random_uniform 0 1 u = u.
Proof. by rewrite /np_random_uniform subr0 mul1r add0r. Qed.

Lemma quarter_minus_twentieth : 1 / 4%:R - 1 / 20%:R = 1 / 5%:R :> R.
Proof.
apply/eqP; rewrite -mulNr addf_div ?pnatr_eq0 // eqr_div ?mulf_neq0 ?pnatr_eq0 //.
by rewrite !mul1r mulN1r -natrB // -!natrM eqr_nat.
Qed.

Lemma quarter_plus_twentieth : 1 / 4%:R + 1 / 20%:R = 3%:R / 10%:R :> R.
Proof.
apply/eqP; rewrite addf_div ?pnatr_eq0 // eqr_div ?mulf_neq0 ?pnatr_eq0 //.
by rewrite !mul1r -natrD -!natrM eqr_nat.
Qed.

Lemma entry_initial_links P rnd n i j :
  NODES P = Posz n -> (i < n)%N -> (j < n)%N ->
  entry (initial_links P rnd) i j
  = if (i == j)
       || (np_random_uniform 0 1 (threshold_samples rnd i j) > LINK_TH P)
    then 0
    else np_random_uniform (LINK_W_BASE P - LINK_W_DEV P)
                           (LINK_W_BASE P + LINK_W_DEV P)
                           (link_samples rnd i j).
Proof.
move=> Hn Hi Hj.
rewrite /initial_links /threshold_links Hn size_range_pos entry_mkseq2 //.
by rewrite /np_random_uniform2 /= entry_mkseq2.
Qed.

(** X10: with the constants of the source the weight matrix drawn at the
    start-up is 19 by 19 with a zero diagonal; there is an edge from i
    to j (i and j distinct) exactly when the draw of line 64 for (i, j)
    is at most LINK_TH = 0.25, and every edge weight lies in
    [0.2, 0.3]. *)
Theorem initial_links_source rnd i j :
  let SP := source_parameters R in
  let A := initial_links SP rnd in
  (forall a b, 0 <= link_samples rnd a b <= 1) ->
  (i < 19)%N -> (j < 19)%N ->
  [/\ is_shape 19 19 A,
      entry A i i = 0,
      (entry A i j != 0)
      = (i != j) && (threshold_samples rnd i j <= 1 / 4%:R)
    & (entry A i j == 0) || (1 / 5%:R <= entry A i j <= 3%:R / 10%:R)].
Proof.
move=> SP A Hu Hi Hj.
have Hn : NODES SP = Posz 19 by [].
have Hw : 1 / 5%:R <= np_random_uniform (LINK_W_BASE SP - LINK_W_DEV SP)
                        (LINK_W_BASE SP + LINK_W_DEV SP) (link_samples rnd i j)
          <= 3%:R / 10%:R.
  rewrite -quarter_minus_twentieth -quarter_plus_twentieth.
  apply: uniform_range (Hu i j).
  by rewrite quarter_minus_twentieth quarter_plus_twentieth
             ler_pdivrMr ?ltr0n // mulrAC ler_pdivlMr ?ltr0n // mul1r
             -natrM ler_nat.
have Hw0 : np_random_uniform (LINK_W_BASE SP - LINK_W_DEV SP)
             (LINK_W_BASE SP + LINK_W_DEV SP) (link_samples rnd i j) != 0.
  case/andP: Hw => Hlo _; rewrite gt_eqF //; apply: lt_le_trans Hlo.
  by rewrite divr_gt0 ?ltr01 ?ltr0n.
split; first exact: (is_shape_initial_links rnd Hn).
- by rewrite /A (entry_initial_links rnd Hn) // eqxx.
- rewrite /A (entry_initial_links rnd Hn) // np_random_uniform_unit.
  case: (i == j) => /=; first by rewrite eqxx.
  by rewrite leNgt; case: (_ < _) => /=; rewrite ?eqxx.
rewrite /A (entry_initial_links rnd Hn) //.
by case: ifP => _; rewrite ?eqxx // Hw orbT.
Qed.

End StartMore.

(** ** The graph: round trips, a missing quantity, the topology *)

Section GraphMore.

Variable R : realFieldType.
Implicit Types (P : parameters R) (G net : DiGraph R string)
  (q : array1 R) (A : array2 R).

(** X11: for distinct names, the matrix read back by [to_numpy_matrix] (line
    159) from the graph that [from_numpy_matrix] and [relabel_nodes]
    build from a square matrix (lines 68-72) is that matrix, with or
    without the quantities set. *)
Theorem graph_matrix_round_trip (name_list : seq string) q A :
  uniq name_list ->
  is_shape (size name_list) (size name_list) A ->
  size q = size name_list ->
  let mapping := fun k => nth EmptyString name_list k in
  let net := set_node_attributes
               (relabel_nodes (from_numpy_matrix A) mapping)
               (zip name_list q) in
  to_numpy_matrix (relabel_nodes (from_numpy_matrix A) mapping) name_list = A
  /\ to_numpy_matrix net name_list = A.
Proof.
move=> Hu Hs Hq /=; have HA : size A = size name_list by case/andP: Hs => /eqP.
rewrite relabel_from_matrix // set_attributes_named_graph //.
by rewrite !to_numpy_matrix_named_graph.
Qed.

Lemma quantities_attr_set G (name_list : seq string) q :
  uniq name_list -> nodes G = name_list -> size q = size name_list ->
  quantities_attr (set_node_attributes G (zip name_list q)) = zip name_list q.
Proof.
move=> Hu Hnodes Hq; rewrite /set_node_attributes /= Hnodes.
apply: pmap_all_some; apply: (@eq_from_nth _ None).
  by rewrite !size_map size_zip Hq minnn.
move=> i; rewrite size_map => Hi.
rewrite (nth_map EmptyString) // (dict_get_zip _ 0) ?Hq //.
by rewrite (nth_map (EmptyString, 0)) ?size_zip ?Hq ?minnn // nth_zip.
Qed.

(** X12: for distinct names that are the nodes of the graph, the quantities
    written with [set_node_attributes] (lines 74 and 169) are read back
    unchanged and in the order of [name_list] by lines 154-155. *)
Theorem quantities_round_trip G (name_list : seq string) q :
  uniq name_list -> nodes G = name_list -> size q = size name_list ->
  mapM (dict_getitem
          (get_node_attributes (set_node_attributes G (zip name_list q))))
       name_list
  = Ok q.
Proof.
move=> Hu Hnodes Hq; rewrite /get_node_attributes quantities_attr_set //.
exact: (quantities_of_named_graph Hu [::] Hq).
Qed.

Lemma mapM_dict_missing (d : seq (string * R)) (s : seq string) k :
  k \in s -> dict_get d k = None ->
  mapM (dict_getitem d) s = Raise KeyError.
Proof.
move=> Hin Hk; elim: s Hin => [//|a s IH].
rewrite in_cons => /orP [/eqP <-|/IH Hrest] /=.
  by rewrite /dict_getitem Hk.
by rewrite Hrest /dict_getitem; case: (dict_get d a).
Qed.

(** X13: when a name of [name_list] has no 'Quantities' attribute in the
    graph, the pass raises KeyError at line 155, before anything is
    drawn or computed. *)
Theorem iteration_missing_quantity P (name_list : seq string)
    (u : nat -> nat -> R) (draw : canvas R) net name :
  name \in name_list -> dict_get (quantities_attr net) name = None ->
  iteration P name_list u draw net = Raise KeyError.
Proof.
move=> Hin Hmiss; rewrite /iteration /get_node_attributes.
by rewrite (mapM_dict_missing Hin Hmiss).
Qed.

Lemma write_weights_endpoints G (links_flat : array1 R) :
  [seq e.1 | e <- edges (write_weights G links_flat)]
  = [seq e.1 | e <- edges G].
Proof.
rewrite /write_weights /=.
elim: (edges G) links_flat => [|e es IH] [|l lf] //=.
by rewrite IH.
Qed.

Lemma iteration_topology P (name_list : seq string) (u : nat -> nat -> R)
    (draw : canvas R) net net' :
  iteration P name_list u draw net = Ok net' ->
  nodes net' = nodes net
  /\ [seq e.1 | e <- edges net'] = [seq e.1 | e <- edges net].
Proof.
rewrite /iteration.
case: (mapM _ _) => [q|//] /=.
case: (update_visualization _ _ _ _) => [drawn|//] /=.
case: (network_dynamics _ _ _ _ _) => [[q1 l1]|//] /=.
case: (flatten _) => [lf|//] /= [<-].
by rewrite write_weights_endpoints.
Qed.

(** X14: whatever the parameters and the samples, a run of the main loop
    that ends without an error leaves the node list and the endpoints of
    all edges, in their order, as they were: the write-back of lines
    171-172 changes weights only. *)
Theorem main_loop_keeps_topology P k (viewer_open : nat -> bool)
    (draw : nat -> canvas R) i
    (name_list : seq string) (rnd : randomness R) net net' :
  main_loop P k viewer_open draw i name_list rnd net = Ok net' ->
  nodes net' = nodes net
  /\ [seq e.1 | e <- edges net'] = [seq e.1 | e <- edges net].
Proof.
elim: k i net => [|k IH] i net /=; first by move=> [<-].
case Hit : (iteration _ _ _ _ _) => [net1|//] /=.
have [Hn1 He1] := iteration_topology Hit.
case: (viewer_open i) => [/IH [-> ->]|[<-]] //.
Qed.

End GraphMore.

(** ** One pass and the main loop *)

Section LoopMore.

Variable R : realFieldType.
Implicit Types (P : parameters R) (q : array1 R) (A : array2 R)
  (u : nat -> nat -> R).



Lemma main_loop_step P k (viewer_open : nat -> bool)
    (draw : nat -> canvas R) i
    (name_list : seq string) (rnd : randomness R) (net : DiGraph R string) :
  main_loop P k.+1 viewer_open draw i name_list rnd net
  = (net' <-- iteration P name_list (drift_samples rnd i) (draw i) net ;;
     if viewer_open i
     then main_loop P k viewer_open draw i.+1 name_list rnd net'
     else Ok net').
Proof. by []. Qed.

(** X17: when the viewer is first found closed after pass number m (counted
    from 0) and the budget allows more than m passes, the loop returns
    what exactly m + 1 passes return: the pass during which the viewer
    was closed is still completed. *)
Theorem main_loop_viewer_closed P k m (viewer_open : nat -> bool)
    (draw : nat -> canvas R) i
    (name_list : seq string) (rnd : randomness R) (net : DiGraph R string) :
  (forall j, (j < m)%N -> viewer_open (i + j)%N) ->
  viewer_open (i + m)%N = false -> (m < k)%N ->
  main_loop P k viewer_open draw i name_list rnd net
  = main_loop P m.+1 (fun _ => true) draw i name_list rnd net.
Proof.
elim: m k i net => [|m IH] [//|k] i net Hopen Hclosed Hk.
  rewrite /=; case: (iteration _ _ _ _ _) => [net1|//] /=.
  by move: Hclosed; rewrite addn0 => ->.
rewrite [LHS]/= [RHS]/=; case: (iteration _ _ _ _ _) => [net1|//] /=.
have -> : viewer_open i by rewrite -[i]addn0 Hopen.
apply: IH => // [j Hj|]; first by rewrite addSnnS Hopen.
by rewrite addSnnS.
Qed.

End LoopMore.

(** ** The sizes that are drawn *)

Section VisualizationFacts.

Variable R : realFieldType.
Implicit Types (q quantities : array1 R) (A : array2 R).

Lemma nodesize_atE (s : array1 R) n :
  (n < size s)%N ->
  nodesize_at s n
  = set_nth 0 s n (Num.max (nth 0 s n) (NODE_SIZE_MIN R) * NODE_SIZE_SCALING R).
Proof.
move=> Hn; rewrite /nodesize_at maxElt.
apply: (@eq_from_nth _ 0); first by rewrite !size_set_nth maxnA maxnn.
move=> i _; rewrite !nth_set_nth /= eqxx.
by case Hi : (i == n) => //; rewrite nth_set_nth /= Hi.
Qed.

Lemma nodesizes_loop quantities k :
  (k <= size quantities)%N ->
  size (foldl (@nodesize_at R) quantities (iota 0 k)) = size quantities
  /\ forall i, nth 0 (foldl (@nodesize_at R) quantities (iota 0 k)) i =
       if (i < k)%N
       then Num.max (nth 0 quantities i) (NODE_SIZE_MIN R) * NODE_SIZE_SCALING R
       else nth 0 quantities i.
Proof.
elim: k => [|k IH] Hk; first by [].
have [Hsz Hnth] := IH (ltnW Hk).
rewrite -addn1 iotaD add0n foldl_cat /= nodesize_atE ?Hsz //; split.
  by rewrite size_set_nth Hsz; apply/maxn_idPr.
move=> i; rewrite nth_set_nth /= !Hnth ltnn addn1 ltnS [(i <= k)%N]leq_eqVlt.
by case: eqP => [->|].
Qed.

Lemma size_floor : NODE_SIZE_MIN R * NODE_SIZE_SCALING R = 1200%:R.
Proof.
rewrite /NODE_SIZE_MIN /NODE_SIZE_SCALING mulrAC -natrM.
by rewrite (natrM _ 1200 10) mulfK // pnatr_eq0.
Qed.

(** X18: the node sizes computed for the drawing (lines 85-88) are, element
    by element, max(quantity, 0.4) * 3000: never below 1200, and
    3000 times the quantity for every quantity of at least 0.4. *)
Theorem nodesizes_floor quantities :
  [/\ size (nodesizes_of quantities) = size quantities,
      nodesizes_of quantities
      = [seq Num.max x (4%:R / 10%:R) * 3000%:R | x <- quantities],
      all (fun s => 1200%:R <= s) (nodesizes_of quantities)
    & forall p, (p < size quantities)%N ->
        4%:R / 10%:R <= nth 0 quantities p ->
        nth 0 (nodesizes_of quantities) p = nth 0 quantities p * 3000%:R].
Proof.
have [Hsz Hnth] := nodesizes_loop (leqnn (size quantities)).
have Hmap : nodesizes_of quantities
            = [seq Num.max x (4%:R / 10%:R) * 3000%:R | x <- quantities].
  apply: (@eq_from_nth _ 0); rewrite ?size_map // => i.
  by rewrite Hsz => Hi; rewrite /nodesizes_of Hnth Hi (nth_map 0).
split=> //.
  rewrite Hmap; apply/allP => s /mapP [x _ ->].
  rewrite -size_floor ler_wpM2r ?ler0n // le_max lexx orbT.
  by [].
by move=> p Hp Hx; rewrite Hmap (nth_map 0) // (max_idPl Hx).
Qed.

(** X19: for distinct names the link widths computed for the drawing (lines
    89-90) are ten times the weights that [flatten] returns for the
    matrix of the graph, in the same order. *)
Theorem linkwidths_follow_flatten (name_list : seq string) q A :
  uniq name_list ->
  is_shape (size name_list) (size name_list) A ->
  exists links_flat : array1 R,
    flatten A = Ok links_flat
    /\ linkwidths_of (named_graph name_list q A)
       = [seq x * 10%:R | x <- links_flat].
Proof.
move=> Hu Hs; have HA : size A = size name_list by case/andP: Hs => /eqP.
exists [seq entry A ij.1 ij.2 | ij <- nonzero_positions A].
split; first exact: flatten_positions Hs.
rewrite /linkwidths_of /= -!map_comp; apply/eq_in_map => -[i j] /=.
rewrite mem_nonzero_positions HA => /and3P [Hi Hj _].
by rewrite edge_weight_named_graph.
Qed.

End VisualizationFacts.

(** ** The naming loop *)

Section NamingMore.

(** X20: the [while] loop of lines 53-55 returns the first drawn name that
    is not yet in [name_list], after having skipped the m duplicates
    before it; m + 1 draws suffice. *)
Theorem fresh_name_first_unused fuel (draw : nat -> string) k
    (name_list : seq string) m :
  (m < fuel)%N ->
  draw (k + m)%N \notin name_list ->
  (forall j, (j < m)%N -> draw (k + j)%N \in name_list) ->
  fresh_name fuel draw k name_list = Some (draw (k + m)%N, (k + m).+1).
Proof.
elim: m fuel k => [|m IH] [//|fuel] k Hm Hnew Hdup /=.
  by move: Hnew; rewrite addn0 => /negbTE ->.
have -> : draw k \in name_list by rewrite -[k]addn0 Hdup.
rewrite -addSnnS; apply: IH => //; first by rewrite addSnnS.
by move=> j Hj; rewrite addSnnS Hdup.
Qed.

End NamingMore.

(** ** The theorems at concrete rational inputs *)

Section Instances.

Local Notation SP := (source_parameters rat).
Local Notation q2 := example_quantities.
Local Notation W2 := example_links.
Local Notation names2 := example_names.
Local Notation u0 := example_samples.




Lemma network_dynamics_index_bounds_witness :
  [/\ is_ok (network_dynamics SP names2 u0 q2 W2)
      = (size names2 <= size q2)%N,
      (size q2 < size names2)%N ->
        network_dynamics SP names2 u0 q2 W2 = Raise IndexError
    & forall q' links', network_dynamics SP names2 u0 q2 W2 = Ok (q', links') ->
        size q' = size names2].
Proof.
have HW : is_shape (size q2) (size q2) W2 by vm_compute.
exact: (@network_dynamics_index_bounds rat SP names2 u0 q2 W2 HW).
Defined.

Lemma limit_params_is_clamp_witness :
  let quantities : array1 rat := [:: 0; 2%:R; 5%:R] in
  let links_flat : array1 rat := [:: 1 / 2%:R; 2%:R] in
  let params : array1 rat := [:: - 1; 1 / 2%:R; 7%:R] in
  let lo : rat := 0 in
  let hi : rat := 2%:R in
  [/\ limit_params SP quantities links_flat =
        ([seq clamp (NODE_Q_MIN SP) (NODE_Q_MAX SP) x | x <- quantities],
         [seq clamp (LINK_W_MIN SP) (LINK_W_MAX SP) x | x <- links_flat]),
      limit_list (lo, hi) params = [seq clamp lo hi x | x <- params],
      size (limit_list (lo, hi) params) = size params
    & forall p, (p < size params)%N ->
        let x := nth 0 params p in
        let y := nth 0 (limit_list (lo, hi) params) p in
        [/\ lo <= x <= hi -> y = x, x < lo -> y = lo & hi < x -> y = hi]].
Proof.
have Hlh : (0 : rat) <= 2%:R by vm_compute.
exact: (@limit_params_is_clamp rat _ _ _ 0 2%:R Hlh).
Defined.

Lemma limit_params_idempotent_witness :
  let quantities : array1 rat := [:: 0; 2%:R; 5%:R] in
  let links_flat : array1 rat := [:: 1 / 2%:R; 2%:R] in
  let params : array1 rat := [:: - 1; 1 / 2%:R; 7%:R] in
  let lo : rat := 0 in
  let hi : rat := 2%:R in
  let once := limit_params SP quantities links_flat in
  limit_params SP once.1 once.2 = once
  /\ limit_list (lo, hi) (limit_list (lo, hi) params)
     = limit_list (lo, hi) params.
Proof.
have Hlh : (0 : rat) <= 2%:R by vm_compute.
exact: (@limit_params_idempotent rat _ _ _ 0 2%:R Hlh).
Defined.

Lemma flatten_nonzero_row_major_witness :
  exists links_flat : array1 rat,
    [/\ flatten W2 = Ok links_flat,
        links_flat = [seq x <- seq.flatten W2 | x != 0],
        links_flat = [seq entry W2 ij.1 ij.2 | ij <- nonzero_positions W2],
        size links_flat = count (fun x => x != 0) (seq.flatten W2)
      & forall (name_list : seq string) (q : array1 rat) (A : array2 rat),
          nonzero_positions W2 = nonzero_positions A ->
          write_weights (named_graph name_list q A) links_flat
          = named_graph name_list q W2].
Proof.
have HW : is_shape 2 2 W2 by vm_compute.
exact: (@flatten_nonzero_row_major rat W2 2 HW).
Defined.

Lemma drift_preserves_zero_pattern_witness :
  let F : array2 rat := [:: [:: 1; 1]; [:: 1; 1]] in
  [/\ 0 < LINK_MOD_BASE SP - LINK_MOD_DEV SP,
      is_shape 2 2 (np_multiply W2 F) /\ is_shape 2 2 (drift SP u0 W2),
      forall i j, (i < 2)%N -> (j < 2)%N ->
        (entry (np_multiply W2 F) i j == 0) = (entry W2 i j == 0)
    & forall i j, (i < 2)%N -> (j < 2)%N ->
        (entry (drift SP u0 W2) i j == 0) = (entry W2 i j == 0)].
Proof.
have Hs : is_shape 2 2 W2 by vm_compute.
have HF i j : (i < 2)%N -> (j < 2)%N ->
    LINK_MOD_BASE SP - LINK_MOD_DEV SP
    <= entry [:: [:: 1; 1]; [:: 1; 1]] i j
    <= LINK_MOD_BASE SP + LINK_MOD_DEV SP.
  by case: i => [|[|i]] //; case: j => [|[|j]] // _ _; vm_compute.
have Hu (i j : nat) : 0 <= u0 i j <= 1 by vm_compute.
exact: (@drift_preserves_zero_pattern rat W2 _ u0 2 2 Hs HF Hu).
Defined.

Lemma initialize_network_unvalidated_witness :
  let name_list := mkseq letter 19 in
  exists net : DiGraph rat string,
    [/\ initialize_network SP 1 sample_draws = Some (Ok (net, name_list)),
        initialize_network (with_bounds SP 3%:R (1 / 100%:R) 1 (1 / 100%:R))
                           1 sample_draws
        = Some (Ok (net, name_list)),
        nodes net = name_list,
        size name_list = 19
      & is_shape 19 19 (to_numpy_matrix net name_list)].
Proof.
have Hn : NODES SP = Posz 19 by [].
have Hu : uniq (mkseq (first_names sample_draws) 19) by vm_compute.
exact: (@initialize_network_unvalidated rat SP sample_draws 0 19 _ _ _ _ Hn Hu).
Defined.

(** C8, as stated, fails.  Without any node ([NODES = 0]) the start-up
    returns an empty graph and an empty name list; with both bound
    pairs upside down (and the 19 nodes of the source) it returns a
    graph as well, and the first pass of the main loop (its plotting
    calls returning) then leaves every quantity at [NODE_Q_MIN = 3],
    above [NODE_Q_MAX = 1/100].  No error is raised in either case. *)
Lemma malformed_configuration_accepted :
  let Pa := with_nodes SP 0 in
  let Pb := with_bounds SP 3%:R (1 / 100%:R) 1 (1 / 100%:R) in
  [/\ malformed Pa,
      initialize_network Pa 1 sample_draws = Some (Ok (Graph [::] [::] [::], [::])),
      malformed Pb,
      started (initialize_network Pb 1 sample_draws)
    & if initialize_network Pb 1 sample_draws is Some (Ok (net, name_list))
      then if iteration Pb name_list (drift_samples sample_draws 0)
                        example_canvas net
              is Ok net'
           then all (fun a => (a.2 == NODE_Q_MIN Pb) && (NODE_Q_MAX Pb < a.2))
                    (quantities_attr net')
           else false
      else false].
Proof.
split.
- by vm_compute.
- by [].
- by vm_compute.
- by vm_compute.
by vm_compute.
Qed.

(** C9, as stated, fails: with the 19 names of the source, 20 quantities
    and a 20-by-20 links matrix every index access of the comprehension
    is in bounds and the step returns, although the number of
    quantities differs from the number of names. *)
Lemma longer_quantities_in_bounds :
  let name_list := mkseq letter 19 in
  let q : array1 rat := nseq 20 1 in
  let W : array2 rat := nseq 20 (nseq 20 0) in
  ~ (is_ok (network_dynamics SP name_list u0 q W)
     <-> size q = size name_list).
Proof.
move=> name_list q W [H _].
have Hok : is_ok (network_dynamics SP name_list u0 q W) by vm_compute.
by have := H Hok.
Qed.

End Instances.

(** ** The further properties at concrete rational inputs *)

Section MoreInstances.

Local Notation SP := (source_parameters rat).
Local Notation q2 := example_quantities.
Local Notation W2 := example_links.
Local Notation names2 := example_names.
Local Notation u0 := example_samples.
Local Notation q3 := example_quantities3.
Local Notation W3 := example_links3.
Local Notation names3 := example_names3.

Lemma source_rat_mod_positive : 0 < LINK_MOD_BASE SP - LINK_MOD_DEV SP.
Proof. by vm_compute. Qed.

Lemma source_rat_mod_ordered :
  LINK_MOD_BASE SP - LINK_MOD_DEV SP <= LINK_MOD_BASE SP + LINK_MOD_DEV SP.
Proof. by vm_compute. Qed.

Lemma source_rat_w_positive : 0 < LINK_W_MIN SP.
Proof. by vm_compute. Qed.

Lemma source_rat_w_ordered : LINK_W_MIN SP <= LINK_W_MAX SP.
Proof. by vm_compute. Qed.


Lemma example_samples_unit (i j : nat) : 0 <= u0 i j <= 1.
Proof. by vm_compute. Qed.

Lemma sample_drift_unit (k i j : nat) :
  0 <= drift_samples sample_draws k i j <= 1.
Proof. by vm_compute. Qed.

Lemma network_dynamics_shape_error_witness :
  network_dynamics SP names2 u0 q3 W2 = Raise ValueError.
Proof.
have Hs : is_shape 2 2 W2 by vm_compute.
have Hr : (0 < 2)%N by [].
have Hne : ~~ ((size q3 == 2%N) && (2%N == 2%N)) by [].
exact: (@network_dynamics_shape_error rat SP names2 u0 q3 W2 2 2 Hs Hr Hne).
Defined.

Lemma isolated_node_keeps_quantity_witness :
  exists q' : array1 rat,
    network_dynamics SP names3 u0 q3 W3 = Ok (q', drift SP u0 W3)
    /\ nth 0 q' 2 = nth 0 q3 2.
Proof.
have Hn : size names3 = 3 by [].
have Hq : size q3 = 3 by [].
have HW : is_shape 3 3 W3 by vm_compute.
have Hi : (2 < 3)%N by [].
have Hiso j : (j < 3)%N -> entry W3 2 j = 0 /\ entry W3 j 2 = 0.
  by case: j => [|[|[|j]]].
exact: (@isolated_node_keeps_quantity rat SP names3 u0 q3 W3 3 2
          Hn Hq HW Hi Hiso).
Defined.


Lemma drift_within_fifteen_percent_witness :
  let w' := entry (drift SP u0 W2) 0 1 in
  (85%:R / 100%:R) * entry W2 0 1 <= w' <= (115%:R / 100%:R) * entry W2 0 1.
Proof.
have HW : is_shape 2 2 W2 by vm_compute.
have Hi : (0 < 2)%N by [].
have Hj : (1 < 2)%N by [].
have Hw : 0 <= entry W2 0 1 by vm_compute.
exact: (@drift_within_fifteen_percent rat u0 W2 2 2 0 1 HW Hi Hj
          (example_samples_unit 0 1) Hw).
Defined.

Lemma flatten_rectangular_witness :
  ((2 <= 3)%N ->
     flatten example_wide
     = Ok [seq x <- seq.flatten [seq take 2 row | row <- example_wide]
          | x != 0])
  /\ ((3 < 2)%N -> flatten example_wide = Raise IndexError).
Proof.
have Hs : is_shape 2 3 example_wide by vm_compute.
exact: (@flatten_rectangular rat example_wide 2 3 Hs).
Defined.

Lemma limit_list_inverted_witness :
  let params : array1 rat := [:: 2%:R; 3%:R; 0] in
  limit_list (3%:R, 1) params
  = [seq if x < 3%:R then 3%:R else 1 | x <- params]
  /\ limit_list (3%:R, 1) (limit_list (3%:R, 1) params)
     = [seq if x < 3%:R then 1 else 3%:R | x <- params].
Proof.
have Hlh : (1 : rat) < 3%:R by vm_compute.
exact: (@limit_list_inverted rat 3%:R 1 _ Hlh).
Defined.

Lemma limit_list_monotone_witness :
  nth 0 (limit_list (0, 2%:R) example_params) 0
  <= nth 0 (limit_list (0, 2%:R) example_params) 1.
Proof.
have Hlh : (0 : rat) <= 2%:R by vm_compute.
have H1 : (0 < size example_params)%N by [].
have H2 : (1 < size example_params)%N by [].
have Hle : nth 0 example_params 0 <= nth 0 example_params 1 by vm_compute.
exact: (@limit_list_monotone rat 0 2%:R example_params 0 1 Hlh H1 H2 Hle).
Defined.

Lemma sample_names_uniq : uniq (mkseq (first_names sample_draws) 19).
Proof. by vm_compute. Qed.

Lemma initialize_network_result_witness :
  let name_list := mkseq letter 19 in
  let net := named_graph name_list (initial_quantities SP sample_draws)
                         (initial_links SP sample_draws) in
  [/\ uniq name_list,
      NODES SP = Posz (size name_list),
      nodes net = name_list
    & net = named_graph name_list (initial_quantities SP sample_draws)
                        (initial_links SP sample_draws)].
Proof.
have Hn : NODES SP = Posz 19 by [].
have Hinit := @initialize_network_named_graph rat SP sample_draws 19 Hn
                sample_names_uniq 0.
exact: (@initialize_network_result rat SP sample_draws 1 _ _ Hinit).
Defined.

Lemma initial_links_source_witness :
  let A := initial_links SP sample_draws in
  [/\ is_shape 19 19 A,
      entry A 0 0 = 0,
      (entry A 0 1 != 0)
      = (0 != 1)%N && (threshold_samples sample_draws 0 1 <= 1 / 4%:R)
    & (entry A 0 1 == 0) || (1 / 5%:R <= entry A 0 1 <= 3%:R / 10%:R)].
Proof.
have Hu (a b : nat) : 0 <= link_samples sample_draws a b <= 1 by vm_compute.
have Hi : (0 < 19)%N by [].
have Hj : (1 < 19)%N by [].
exact: (@initial_links_source rat sample_draws 0 1 Hu Hi Hj).
Defined.

Lemma names2_uniq : uniq names2.
Proof. by vm_compute. Qed.

Lemma graph_matrix_round_trip_witness :
  let mapping := fun k => nth EmptyString names2 k in
  let net := set_node_attributes
               (relabel_nodes (from_numpy_matrix W2) mapping)
               (zip names2 q2) in
  to_numpy_matrix (relabel_nodes (from_numpy_matrix W2) mapping) names2 = W2
  /\ to_numpy_matrix net names2 = W2.
Proof.
have Hs : is_shape (size names2) (size names2) W2 by vm_compute.
have Hq : size q2 = size names2 by [].
exact: (@graph_matrix_round_trip rat names2 q2 W2 names2_uniq Hs Hq).
Defined.

Lemma quantities_round_trip_witness :
  mapM (dict_getitem
          (get_node_attributes
             (set_node_attributes (named_graph names2 [::] W2)
                                  (zip names2 q2))))
       names2
  = Ok q2.
Proof.
have Hnodes : nodes (named_graph names2 [::] W2) = names2 by [].
have Hq : size q2 = size names2 by [].
exact: (@quantities_round_trip rat _ names2 q2 names2_uniq Hnodes Hq).
Defined.

Lemma iteration_missing_quantity_witness :
  iteration SP names2 u0 example_canvas (named_graph names2 [::] W2)
  = Raise KeyError.
Proof.
have Hin : letter 0 \in names2 by vm_compute.
have Hmiss : dict_get (quantities_attr (named_graph names2 [::] W2))
               (letter 0) = None by [].
exact: (@iteration_missing_quantity rat SP names2 u0 example_canvas _
          (letter 0) Hin Hmiss).
Defined.

Lemma example_drawing_returns (i : nat) (net : DiGraph rat string)
    (sizes widths : array1 rat) (total : rat) :
  example_drawing i net sizes widths total = Ok tt.
Proof. by []. Qed.

Lemma example_pass :
  main_loop SP 1 (fun _ => true) example_drawing 0 names2 sample_draws
            (named_graph names2 q2 W2)
  = Ok (named_graph names2 (next_quantities SP q2 W2)
                    (next_links SP (drift_samples sample_draws 0) W2)).
Proof.
have Hq : size q2 = size names2 by [].
have Hs : is_shape (size names2) (size names2) W2 by vm_compute.
rewrite main_loop_step.
rewrite (iteration_named_graph names2_uniq source_rat_mod_positive
           source_rat_mod_ordered source_rat_w_positive
           source_rat_w_ordered Hq Hs (sample_drift_unit 0)
           (example_drawing_returns 0 _ _ _ _)).
by [].
Qed.

Lemma main_loop_keeps_topology_witness :
  let net := named_graph names2 q2 W2 in
  let net' := named_graph names2 (next_quantities SP q2 W2)
                (next_links SP (drift_samples sample_draws 0) W2) in
  nodes net' = nodes net
  /\ [seq e.1 | e <- edges net'] = [seq e.1 | e <- edges net].
Proof.
exact: (@main_loop_keeps_topology rat SP 1 (fun _ => true) example_drawing
          0 names2 sample_draws _ _ example_pass).
Defined.



Lemma main_loop_viewer_closed_witness :
  main_loop SP 5 example_viewer example_drawing 0 names2 sample_draws
            (named_graph names2 q2 W2)
  = main_loop SP 2 (fun _ => true) example_drawing 0 names2 sample_draws
              (named_graph names2 q2 W2).
Proof.
have Hopen j : (j < 1)%N -> example_viewer (0 + j)%N by case: j.
have Hclosed : example_viewer (0 + 1)%N = false by [].
have Hk : (1 < 5)%N by [].
exact: (@main_loop_viewer_closed rat SP 5 1 example_viewer example_drawing
          0 names2 sample_draws _ Hopen Hclosed Hk).
Defined.

Lemma nodesizes_floor_witness :
  [/\ size (nodesizes_of q3) = size q3,
      nodesizes_of q3 = [seq Num.max x (4%:R / 10%:R) * 3000%:R | x <- q3],
      all (fun s => 1200%:R <= s) (nodesizes_of q3)
    & forall p, (p < size q3)%N ->
        4%:R / 10%:R <= nth 0 q3 p ->
        nth 0 (nodesizes_of q3) p = nth 0 q3 p * 3000%:R].
Proof. exact: (@nodesizes_floor rat q3). Defined.

Lemma linkwidths_follow_flatten_witness :
  exists links_flat : array1 rat,
    flatten W2 = Ok links_flat
    /\ linkwidths_of (named_graph names2 q2 W2)
       = [seq x * 10%:R | x <- links_flat].
Proof.
have Hs : is_shape (size names2) (size names2) W2 by vm_compute.
exact: (@linkwidths_follow_flatten rat names2 q2 W2 names2_uniq Hs).
Defined.

Lemma fresh_name_first_unused_witness :
  fresh_name 3 example_repeating 0 [:: letter 0]
  = Some (example_repeating (0 + 2), (0 + 2).+1).
Proof.
have Hm : (2 < 3)%N by [].
have Hnew : example_repeating (0 + 2) \notin [:: letter 0] by vm_compute.
have Hdup j : (j < 2)%N -> example_repeating (0 + j) \in [:: letter 0].
  by case: j => [|[|j]] // _; vm_compute.
exact: (@fresh_name_first_unused 3 example_repeating 0 [:: letter 0] 2
          Hm Hnew Hdup).
Defined.


End MoreInstances.
